(** * Verification of pipedream helpers and of the Destination Delivery model

    Part 1 embeds JavaScript code of the repository:
    - the common utils [emptyObjectToUndefined], [emptyStrToUndefined],
      [parse], [optionalParseAsJSON] and [parseObjectEntries];
    - [convertDateToTimestamp], [buildSearchQuery] and [run] of the
      stripe-search-customers action.
    Part 2 models the Destination Delivery subsystem (emission buffer,
    batch accumulator, dispatcher, worker) after its specification. *)

From Stdlib Require Import ZArith List String Ascii Bool Lia.
From Stdlib Require Import Relations.Relation_Operators.
Import ListNotations.
Open Scope string_scope.
Set Warnings "-register-all,-abstract-large-number".

(* ===================================================================== *)
(** ** JavaScript values *)
(* ===================================================================== *)

Module Js.

(** JavaScript values as far as the helpers observe them.  Numbers are
    integral ([JNum]) or NaN; the helpers below only test numbers for
    truthiness, for which any other finite non-zero number behaves like a
    non-zero integer.  A string is a sequence of UTF-16 code units in the
    range 0..255 (one [ascii] each).  An object is its list of own
    enumerable string-keyed properties, in property order. *)
Inductive jsval : Type :=
  | JUndefined
  | JNull
  | JBool (b : bool)
  | JNum (n : Z)
  | JNaN
  | JBigInt (n : Z)
  | JStr (s : string)
  | JSymbol (id : nat)
  | JArray (xs : list jsval)
  | JObject (props : list (string * jsval))
  | JFunction (id : nat).

(** Abrupt completions of the helpers. *)
Inductive js_error := TypeError | SyntaxError.

Inductive completion (A : Type) : Type :=
  | Normal (v : A)
  | Throw (e : js_error).
Arguments Normal {A} v.
Arguments Throw {A} e.

(** [typeof v] *)
Definition typeof (v : jsval) : string :=
  match v with
  | JUndefined => "undefined"
  | JNull => "object"
  | JBool _ => "boolean"
  | JNum _ | JNaN => "number"
  | JBigInt _ => "bigint"
  | JStr _ => "string"
  | JSymbol _ => "symbol"
  | JArray _ | JObject _ => "object"
  | JFunction _ => "function"
  end.

(** [Array.isArray v] *)
Definition isArray (v : jsval) : bool :=
  match v with JArray _ => true | _ => false end.

(** ToBoolean *)
Definition truthy (v : jsval) : bool :=
  match v with
  | JUndefined | JNull | JNaN => false
  | JBool b => b
  | JNum n | JBigInt n => negb (Z.eqb n 0)
  | JStr s => negb (String.eqb s "")
  | _ => true
  end.

(** White space and line terminators removed by [String.prototype.trim]
    in the code-unit range 0..255: TAB, LF, VT, FF, CR, SP and NBSP. *)
Definition is_js_space (c : ascii) : bool :=
  let n := nat_of_ascii c in
  (9 <=? n)%nat && (n <=? 13)%nat || (n =? 32)%nat || (n =? 160)%nat.

Fixpoint trim_start (s : string) : string :=
  match s with
  | EmptyString => EmptyString
  | String c t => if is_js_space c then trim_start t else s
  end.

Definition trim_end (s : string) : string :=
  string_of_list_ascii
    (rev (list_ascii_of_string (trim_start
      (string_of_list_ascii (rev (list_ascii_of_string s)))))).

(** [s.trim()] *)
Definition trim (s : string) : string := trim_end (trim_start s).

(** [Object.keys(v)]: ToObject throws on [null] and [undefined]. *)
Definition object_keys (v : jsval) : completion (list string) :=
  match v with
  | JUndefined | JNull => Throw TypeError
  | JObject props => Normal (map fst props)
  | JArray xs => Normal (map (fun _ => "") xs) (* index keys; unused here *)
  | JStr s => Normal (map (fun _ => "") (list_ascii_of_string s))
  | _ => Normal []
  end.

(** [{ ...o, [k]: v }]: the spread copies [o]'s properties in order, the
    computed property then overwrites [k] in place or appends it. *)
Fixpoint obj_set (o : list (string * jsval)) (k : string) (v : jsval)
  : list (string * jsval) :=
  match o with
  | [] => [(k, v)]
  | (k', v') :: t => if String.eqb k' k then (k, v) :: t else (k', v') :: obj_set t k v
  end.

(** <<
function emptyStrToUndefined(value) {
  const trimmed = typeof(value) === "string" && value.trim();
  return trimmed === EMPTY ? undefined : value;   // EMPTY: the empty string
}
>> *)
Definition emptyStrToUndefined (value : jsval) : jsval :=
  let trimmed :=
    if String.eqb (typeof value) "string"
    then match value with JStr s => JStr (trim s) | _ => JBool false end
    else JBool false in
  match trimmed with
  | JStr t => if String.eqb t "" then JUndefined else value
  | _ => value
  end.

(** The [reduce] callback of [emptyObjectToUndefined]. *)
Definition reduce_step (reduction : list (string * jsval)) (entry : string * jsval)
  : list (string * jsval) :=
  let '(key, value) := entry in
  if negb (truthy (emptyStrToUndefined value)) then reduction
  else obj_set reduction key value.

(** <<
function emptyObjectToUndefined(value) {
  if (typeof(value) !== "object" || Array.isArray(value)) return value;
  if (!Object.keys(value).length) return undefined;
  const reduction = Object.entries(value).reduce(..., {});
  return Object.keys(reduction).length ? reduction : undefined;
}
>> *)
Definition emptyObjectToUndefined (value : jsval) : completion jsval :=
  if negb (String.eqb (typeof value) "object") || isArray value then Normal value
  else
    match object_keys value with
    | Throw e => Throw e
    | Normal keys =>
        if Nat.eqb (List.length keys) 0 then Normal JUndefined
        else
          match value with
          | JObject props =>
              let reduction := fold_left reduce_step props [] in
              if Nat.eqb (List.length (map fst reduction)) 0 then Normal JUndefined
              else Normal (JObject reduction)
          | _ => Normal value
          end
    end.

(** A property the reduction keeps: its value is truthy after
    [emptyStrToUndefined]. *)
Definition kept (kv : string * jsval) : bool := truthy (emptyStrToUndefined (snd kv)).

End Js.

(* ===================================================================== *)
(** ** stripe-search-customers: date filters *)
(* ===================================================================== *)

Module Stripe.
Import Js.
Local Open Scope Z_scope.

(** Days from 1970-01-01 to the proleptic Gregorian date [y-m-d]
    (ECMAScript MakeDay for in-range dates). *)
Definition days_from_civil (y m d : Z) : Z :=
  let y' := if m <=? 2 then y - 1 else y in
  let era := y' / 400 in
  let yoe := y' - era * 400 in
  let mp := if 2 <? m then m - 3 else m + 9 in
  let doy := (153 * mp + 2) / 5 + d - 1 in
  let doe := yoe * 365 + yoe / 4 - yoe / 100 + doy in
  era * 146097 + doe - 719468.

Definition is_leap (y : Z) : bool :=
  (Z.eqb (y mod 4) 0 && negb (Z.eqb (y mod 100) 0)) || Z.eqb (y mod 400) 0.

Definition days_in_month (y m : Z) : Z :=
  if Z.eqb m 2 then (if is_leap y then 29 else 28)
  else if existsb (Z.eqb m) [4; 6; 9; 11] then 30 else 31.

Definition digit (c : ascii) : option Z :=
  let n := nat_of_ascii c in
  if (48 <=? n)%nat && (n <=? 57)%nat then Some (Z.of_nat (n - 48)) else None.

Fixpoint digits_value (acc : Z) (cs : list ascii) : option Z :=
  match cs with
  | [] => Some acc
  | c :: t => match digit c with
              | Some v => digits_value (acc * 10 + v) t
              | None => None
              end
  end.

Definition in_range (lo x hi : Z) : bool := (lo <=? x) && (x <=? hi).

(** The part of the ECMAScript Date Time String Format that the action
    produces, [YYYY-MM-DDTHH:mm:ssZ], parsed to a time value in
    milliseconds.  [None] means "not recognised here". *)
Definition iso_date_time (s : string) : option Z :=
  match list_ascii_of_string s with
  | [y1; y2; y3; y4; c1; m1; m2; c2; d1; d2; cT; h1; h2; c3; n1; n2; c4; s1; s2; cZ] =>
      if Ascii.eqb c1 "-" && Ascii.eqb c2 "-" && Ascii.eqb cT "T" && Ascii.eqb c3 ":"
         && Ascii.eqb c4 ":" && Ascii.eqb cZ "Z" then
        match digits_value 0 [y1; y2; y3; y4], digits_value 0 [m1; m2],
              digits_value 0 [d1; d2], digits_value 0 [h1; h2],
              digits_value 0 [n1; n2], digits_value 0 [s1; s2] with
        | Some y, Some mo, Some d, Some h, Some mi, Some se =>
            if in_range 1 mo 12 && in_range 1 d (days_in_month y mo)
               && in_range 0 h 23 && in_range 0 mi 59 && in_range 0 se 59
            then Some (days_from_civil y mo d * 86400000
                       + ((h * 60 + mi) * 60 + se) * 1000)
            else None
        | _, _, _, _, _, _ => None
        end
      else None
  | _ => None
  end.

(** TimeClip: time values beyond 8.64e15 ms are NaN ([None]). *)
Definition time_clip (t : option Z) : option Z :=
  match t with
  | Some v => if Z.abs v <=? 8640000000000000 then Some v else None
  | None => None
  end.

Section WithFallback.
(** Strings outside the Date Time String Format are parsed by
    implementation-specific heuristics; [fallback] stands for them. *)
Variable fallback : string -> option Z.

(** [new Date(str).getTime()]: [None] is NaN. *)
Definition date_parse (str : string) : option Z :=
  time_clip (match iso_date_time str with
             | Some t => Some t
             | None => fallback str
             end).

(** Optional string props: [None] is [undefined]. *)
Definition prop_truthy (p : option string) : bool :=
  match p with Some s => negb (String.eqb s "") | None => false end.

(** <<
convertDateToTimestamp(dateStr) {
  if (!dateStr) return null;
  const date = new Date(`${dateStr}T00:00:00Z`);
  return Math.floor(date.getTime() / 1000);
}
>>  For an integral time value [t] with |t| <= 8.64e15 the double
    [t / 1000] never rounds across an integer, so [Math.floor] of it is
    the floor division [t / 1000] on [Z]; NaN stays NaN. *)
Definition convertDateToTimestamp (dateStr : option string) : jsval :=
  match dateStr with
  | Some s =>
      if prop_truthy dateStr then
        match date_parse (s ++ "T00:00:00Z") with
        | Some t => JNum (t / 1000)
        | None => JNaN
        end
      else JNull
  | None => JNull
  end.

End WithFallback.

(** Number::toString for integers. *)
Fixpoint pos_digits (fuel : nat) (n : Z) (acc : string) : string :=
  match fuel with
  | O => acc
  | S f =>
      let d := String (ascii_of_nat (48 + Z.to_nat (n mod 10))) acc in
      if n <? 10 then d else pos_digits f (n / 10) d
  end.

Definition number_to_string (v : jsval) : string :=
  match v with
  | JNum n => if n <? 0 then "-" ++ pos_digits 64 (- n) "" else pos_digits 64 n ""
  | JNaN => "NaN"
  | JNull => "null"
  | _ => ""
  end.

(** The [replace] of the source with a global double-quote pattern: a
    backslash is put before every double quote. *)
Fixpoint escape_quotes (s : string) : string :=
  match s with
  | EmptyString => EmptyString
  | String c t =>
      if Ascii.eqb c (ascii_of_nat 34) then String (ascii_of_nat 92) (String c (escape_quotes t))
      else String c (escape_quotes t)
  end.

Definition dq : string := String (ascii_of_nat 34) EmptyString.

(** The props read by [buildSearchQuery]. *)
Record props := {
  query : option string;
  email : option string;
  emailDomain : option string;
  createdAfter : option string;
  createdBefore : option string
}.

(** [queryParts.join(" AND ")] *)
Fixpoint join (sep : string) (parts : list string) : string :=
  match parts with
  | [] => ""
  | [p] => p
  | p :: t => p ++ sep ++ join sep t
  end.

(** <<
buildSearchQuery() {
  const queryParts = [];
  if (this.query) return this.query;
  if (this.email) queryParts.push(`email="${escapedEmail}"`);
  if (this.emailDomain) queryParts.push(`email~"${escapedDomain}"`);
  const afterTimestamp = this.convertDateToTimestamp(this.createdAfter);
  if (afterTimestamp) queryParts.push(`created>${afterTimestamp}`);
  const beforeTimestamp = this.convertDateToTimestamp(this.createdBefore);
  if (beforeTimestamp) queryParts.push(`created<${beforeTimestamp}`);
  return queryParts.join(" AND ");
}
>> *)
Definition prop_value (p : option string) : string :=
  match p with Some s => s | None => "undefined" end.

Definition buildSearchQuery (fallback : string -> option Z) (this : props) : string :=
  if prop_truthy (query this) then prop_value (query this)
  else
    let p1 := if prop_truthy (email this)
              then ["email=" ++ dq ++ escape_quotes (prop_value (email this)) ++ dq] else [] in
    let p2 := if prop_truthy (emailDomain this)
              then ["email~" ++ dq ++ escape_quotes (prop_value (emailDomain this)) ++ dq] else [] in
    let afterTimestamp := convertDateToTimestamp fallback (createdAfter this) in
    let p3 := if truthy afterTimestamp
              then ["created>" ++ number_to_string afterTimestamp] else [] in
    let beforeTimestamp := convertDateToTimestamp fallback (createdBefore this) in
    let p4 := if truthy beforeTimestamp
              then ["created<" ++ number_to_string beforeTimestamp] else [] in
    join " AND " (p1 ++ p2 ++ p3 ++ p4).

Definition without_createdAfter (p : props) : props :=
  {| query := query p; email := email p; emailDomain := emailDomain p;
     createdAfter := None; createdBefore := createdBefore p |}.

Definition without_createdBefore (p : props) : props :=
  {| query := query p; email := email p; emailDomain := emailDomain p;
     createdAfter := createdAfter p; createdBefore := None |}.

(** A search by email with an unparsable lower date bound and the epoch
    as upper bound. *)
Definition email_search : props :=
  {| query := None; email := Some "a@b.c"; emailDomain := None;
     createdAfter := Some "abc"; createdBefore := Some "1970-01-01" |}.

End Stripe.

(* ===================================================================== *)
(** ** The other helpers of the common utils *)
(* ===================================================================== *)

Module JsUtils.
Import Js Stripe.

(** Exceptions thrown by [parse]: the engine's own errors, and the
    platform's [ConfigurationError] with its message. *)
Inductive exn : Type :=
  | EngineError (e : js_error)
  | ConfigurationError (msg : string).

Inductive outcome (A : Type) : Type :=
  | Ok (v : A)
  | Raise (e : exn).
Arguments Ok {A} v.
Arguments Raise {A} e.

(** [value === undefined] *)
Definition is_undefined (v : jsval) : bool :=
  match v with JUndefined => true | _ => false end.

(** Decimal string of an array index, as used for property keys. *)
Definition index_key (i : nat) : string := number_to_string (JNum (Z.of_nat i)).

(** [Object.fromEntries(entries)]: each entry is defined in turn on a
    fresh object ([CreateDataProperty]): an existing key keeps its place
    and takes the new value, a new key is appended.  The entries used
    below come from [Object.entries], so they are in the object's own
    property order. *)
Definition from_entries (entries : list (string * jsval)) : jsval :=
  JObject (fold_left (fun o (kv : string * jsval) => obj_set o (fst kv) (snd kv)) entries []).

Section WithJSON.
(** [JSON.parse(v)], including the [ToString(v)] it starts with: a
    standard function of the engine, not embedded here; every theorem
    about the helpers below holds whatever function stands for it. *)
Variable JSON_parse : jsval -> completion jsval.
(** The own enumerable string-keyed properties of the function object
    with the given id, in property order: a function value is modelled
    by its id only, so they are a parameter too. *)
Variable function_props : nat -> list (string * jsval).

(** [Object.entries(v)]: ToObject throws on [null] and [undefined]; an
    array or a string has its index keys ["0"], ["1"], ...; a function
    has its own enumerable properties; the other primitives have none. *)
Definition object_entries (v : jsval) : completion (list (string * jsval)) :=
  match v with
  | JUndefined | JNull => Throw TypeError
  | JObject props => Normal props
  | JArray xs => Normal (combine (map index_key (seq 0 (List.length xs))) xs)
  | JStr s =>
      let cs := list_ascii_of_string s in
      Normal (combine (map index_key (seq 0 (List.length cs)))
                      (map (fun c => JStr (String c EmptyString)) cs))
  | JFunction id => Normal (function_props id)
  | JBool _ | JNum _ | JNaN | JBigInt _ | JSymbol _ => Normal []
  end.

Definition configuration_message : string :=
  "Make sure the custom expression contains a valid object".

(** <<
function parse(value) {
  const valueToParse = emptyStrToUndefined(value);
  if (typeof(valueToParse) === "object" || valueToParse === undefined) {
    return valueToParse;
  }
  try {
    return JSON.parse(valueToParse);
  } catch (e) {
    throw new ConfigurationError(configuration_message);
  }
}
>> *)
Definition parse (value : jsval) : outcome jsval :=
  let valueToParse := emptyStrToUndefined value in
  if String.eqb (typeof valueToParse) "object" || is_undefined valueToParse then Ok valueToParse
  else
    match JSON_parse valueToParse with
    | Normal v => Ok v
    | Throw _ => Raise (ConfigurationError configuration_message)
    end.

(** <<
function optionalParseAsJSON(value) {
  try { return JSON.parse(value); } catch (e) { return value; }
}
>> *)
Definition optionalParseAsJSON (value : jsval) : completion jsval :=
  match JSON_parse value with
  | Normal v => Normal v
  | Throw _ => Normal value
  end.

(** [entries.map(([key, value]) => [key, optionalParseAsJSON(value)])],
    stopping at the first exception. *)
Fixpoint map_entries (entries : list (string * jsval))
  : completion (list (string * jsval)) :=
  match entries with
  | [] => Normal []
  | (key, value) :: t =>
      match optionalParseAsJSON value with
      | Throw e => Throw e
      | Normal v =>
          match map_entries t with
          | Throw e => Throw e
          | Normal t' => Normal ((key, v) :: t')
          end
      end
  end.

(** <<
function parseObjectEntries(value) {
  const obj = typeof value === "string" ? JSON.parse(value) : value;
  return Object.fromEntries(
    Object.entries(obj).map(([key, value]) => [key, optionalParseAsJSON(value)]));
}
>> *)
Definition parseObjectEntries (value : jsval) : completion jsval :=
  match (if String.eqb (typeof value) "string" then JSON_parse value else Normal value) with
  | Throw e => Throw e
  | Normal obj =>
      match object_entries obj with
      | Throw e => Throw e
      | Normal entries =>
          match map_entries entries with
          | Throw e => Throw e
          | Normal mapped => Normal (from_entries mapped)
          end
      end
  end.

End WithJSON.

End JsUtils.

(* ===================================================================== *)
(** ** The run of stripe-search-customers *)
(* ===================================================================== *)

Module StripeRun.
Import Js Stripe.

(** How [run] ends: an exception with its message, or the [$summary] it
    exports together with the customers it returns. *)
Inductive run_outcome : Type :=
  | RunError (msg : string)
  | RunDone (summary : string) (data : list jsval).

Definition no_parameter_message : string := "Please provide at least one search parameter".

(** <<
async run({ $ }) {
  const query = this.buildSearchQuery();
  if (!query) throw new Error(no_parameter_message);
  const results = await this.app.sdk("2023-10-16").customers.search({ query, limit: this.limit });
  const resultCount = results.data.length;
  $.export("$summary", `Found ${resultCount} customer${resultCount === 1 ? "" : "s"}`);
  return results.data;
}
>>  [search] stands for the Stripe call: it receives the query and the
    limit and yields [results.data], or the message of the error it
    rejects with. *)
Definition run (fallback : string -> option Z) (this : props) (limit : jsval)
    (search : string -> jsval -> string + list jsval) : run_outcome :=
  let query := buildSearchQuery fallback this in
  if String.eqb query "" then RunError no_parameter_message
  else
    match search query limit with
    | inl msg => RunError msg
    | inr data =>
        let resultCount := List.length data in
        RunDone ("Found " ++ number_to_string (JNum (Z.of_nat resultCount)) ++ " customer"
                 ++ (if Nat.eqb resultCount 1 then "" else "s"))
                data
    end.

End StripeRun.

(* ===================================================================== *)
(** ** Destination Delivery subsystem *)
(* ===================================================================== *)

(** Modelled from the spec: the Destination Delivery subsystem (emission
    buffer [send]/[enqueue], batch accumulator, delivery dispatcher,
    delivery worker and execution completion hook) is not part of the
    sources; only its documentation and callers ([$.send.http] and the
    like) are.  The definitions of this module follow the specification
    sections 3 to 7 and 9. *)
Module Delivery.
Local Open Scope list_scope.

(** Recognized [destinationType] values. *)
Inductive dest_type := Http | ObjectStorage | Email | PushChannel | ReEmit.

Definition dest_type_of_string (s : string) : option dest_type :=
  if String.eqb s "http" then Some Http
  else if String.eqb s "object-storage" then Some ObjectStorage
  else if String.eqb s "email" then Some Email
  else if String.eqb s "push-channel" then Some PushChannel
  else if String.eqb s "re-emit" then Some ReEmit
  else None.

Definition dest_type_eqb (a b : dest_type) : bool :=
  match a, b with
  | Http, Http | ObjectStorage, ObjectStorage | Email, Email
  | PushChannel, PushChannel | ReEmit, ReEmit => true
  | _, _ => false
  end.

(** [destinationConfig]: named string fields. *)
Definition config := list (string * string).

Definition field (c : config) (f : string) : option string :=
  match find (fun kv => String.eqb (fst kv) f) c with
  | Some (_, v) => Some v
  | None => None
  end.

Definition has_field (c : config) (f : string) : bool :=
  match field c f with Some _ => true | None => false end.

(** Required [config] fields per destination type (section 6). *)
Definition required_fields_ok (t : dest_type) (c : config) : bool :=
  match t with
  | Http => has_field c "method" && has_field c "url"
  | ObjectStorage => has_field c "bucket" && has_field c "keyTemplate" && has_field c "format"
  | Email => has_field c "to" && has_field c "subject"
  | PushChannel => has_field c "channelId" && has_field c "eventName"
  | ReEmit => has_field c "targetExecutionId" || has_field c "targetListenerId"
  end.

(** Payloads; [PFunction] is a function value, which is not structurally
    serializable.  (Cyclic references cannot be built in this inductive
    representation.) *)
Inductive payload :=
  | PNull
  | PBool (b : bool)
  | PNum (n : Z)
  | PStr (s : string)
  | PArray (xs : list payload)
  | PObject (props : list (string * payload))
  | PFunction.

Fixpoint serializable (p : payload) : bool :=
  match p with
  | PFunction => false
  | PArray xs => forallb serializable xs
  | PObject props => forallb (fun kv => serializable (snd kv)) props
  | _ => true
  end.

(** Destination Key: the destination type and the config fields that
    identify the logical target. *)
Definition key := (dest_type * list (option string))%type.

Definition identifying_fields (t : dest_type) : list string :=
  match t with
  | Http => ["url"]
  | ObjectStorage => ["bucket"; "keyTemplate"]
  | Email => ["to"]
  | PushChannel => ["channelId"]
  | ReEmit => ["targetExecutionId"; "targetListenerId"]
  end.

Definition dest_key (t : dest_type) (c : config) : key :=
  (t, map (field c) (identifying_fields t)).

Definition opt_str_eqb (a b : option string) : bool :=
  match a, b with
  | Some x, Some y => String.eqb x y
  | None, None => true
  | _, _ => false
  end.

Fixpoint list_eqb {A} (eq : A -> A -> bool) (a b : list A) : bool :=
  match a, b with
  | [], [] => true
  | x :: a', y :: b' => eq x y && list_eqb eq a' b'
  | _, _ => false
  end.

Definition key_eqb (a b : key) : bool :=
  dest_type_eqb (fst a) (fst b) && list_eqb opt_str_eqb (snd a) (snd b).

(** Batching Policy *)
Inductive delivery_mode := Immediate | Batched.

Record policy := {
  maxBatchSize : nat;
  maxWaitTimeMs : nat;
  deliveryMode : delivery_mode
}.

(** Per-call overrides of the policy. *)
Record overrides := {
  oMaxBatchSize : option nat;
  oMaxWaitTimeMs : option nat
}.

Definition no_overrides : overrides := {| oMaxBatchSize := None; oMaxWaitTimeMs := None |}.

Definition apply_overrides (p : policy) (o : overrides) : policy :=
  {| maxBatchSize := match oMaxBatchSize o with Some n => n | None => maxBatchSize p end;
     maxWaitTimeMs := match oMaxWaitTimeMs o with Some n => n | None => maxWaitTimeMs p end;
     deliveryMode := deliveryMode p |}.

(** Size threshold of readiness: [immediate] is [maxBatchSize = 1]. *)
Definition size_threshold (p : policy) : nat :=
  match deliveryMode p with Immediate => 1 | Batched => maxBatchSize p end.

(** Process-scoped settings of one delivery system instance. *)
Record settings := {
  default_policy : dest_type -> policy;
  maxAttempts : nat;        (* bound on Delivery Attempts per Batch *)
  backoffBaseMs : nat;      (* first retry delay *)
  bufferCeiling : nat       (* records held by open Batches *)
}.

(** Event Record *)
Record event_record := {
  rid : nat;
  executionId : nat;
  destinationType : dest_type;
  destinationConfig : config;
  payload_of : payload;
  enqueuedAt : nat
}.

Definition record_key (r : event_record) : key :=
  dest_key (destinationType r) (destinationConfig r).

Inductive batch_state := Accumulating | Ready | Flushing | Delivered | ExhaustedFailed.

Definition batch_state_eqb (a b : batch_state) : bool :=
  match a, b with
  | Accumulating, Accumulating | Ready, Ready | Flushing, Flushing
  | Delivered, Delivered | ExhaustedFailed, ExhaustedFailed => true
  | _, _ => false
  end.

Definition is_terminal (st : batch_state) : bool :=
  match st with Delivered | ExhaustedFailed => true | _ => false end.

(** Batch *)
Record batch := {
  bid : nat;
  destinationKey : key;
  bpolicy : policy;
  records : list event_record;
  state : batch_state;
  createdAt : nat;
  attempts : nat;
  nextRetryAt : nat
}.

(** Outcome report to the observability sink:
    [reportDeliveryOutcome(batchId, destinationKey, outcome, attempts)]. *)
Record report := {
  rBatchId : nat;
  rKey : key;
  rOutcome : batch_state;
  rAttempts : nat
}.

(** System state.  [batches] lists every Batch in creation order (a
    terminal Batch is kept as a tombstone), [readyQueue] is the
    dispatcher's FIFO of Ready Batches, [accepted] logs the records
    accepted by [enqueue], in call order. *)
Record sys := {
  now : nat;
  nextRid : nat;
  batches : list batch;
  readyQueue : list (key * nat);
  reports : list report;
  accepted : list event_record
}.

Definition init_sys : sys :=
  {| now := 0; nextRid := 0; batches := []; readyQueue := []; reports := []; accepted := [] |}.

Definition set_batches (s : sys) (bs : list batch) : sys :=
  {| now := now s; nextRid := nextRid s; batches := bs; readyQueue := readyQueue s;
     reports := reports s; accepted := accepted s |}.

Definition set_queue (s : sys) (q : list (key * nat)) : sys :=
  {| now := now s; nextRid := nextRid s; batches := batches s; readyQueue := q;
     reports := reports s; accepted := accepted s |}.

Definition update_batch (i : nat) (f : batch -> batch) (bs : list batch) : list batch :=
  map (fun b => if Nat.eqb (bid b) i then f b else b) bs.

Definition with_state (st : batch_state) (b : batch) : batch :=
  {| bid := bid b; destinationKey := destinationKey b; bpolicy := bpolicy b;
     records := records b; state := st; createdAt := createdAt b;
     attempts := attempts b; nextRetryAt := nextRetryAt b |}.

Definition with_attempt (st : batch_state) (a retry : nat) (b : batch) : batch :=
  {| bid := bid b; destinationKey := destinationKey b; bpolicy := bpolicy b;
     records := records b; state := st; createdAt := createdAt b;
     attempts := a; nextRetryAt := retry |}.

Definition add_record (r : event_record) (b : batch) : batch :=
  {| bid := bid b; destinationKey := destinationKey b; bpolicy := bpolicy b;
     records := records b ++ [r]; state := state b; createdAt := createdAt b;
     attempts := attempts b; nextRetryAt := nextRetryAt b |}.

Definition of_key (k : key) (b : batch) : bool := key_eqb (destinationKey b) k.

Definition is_open (b : batch) : bool := batch_state_eqb (state b) Accumulating.

Definition open_batch (k : key) (bs : list batch) : option batch :=
  find (fun b => of_key k b && is_open b) bs.

Definition key_flushing (k : key) (bs : list batch) : bool :=
  existsb (fun b => of_key k b && batch_state_eqb (state b) Flushing) bs.

(** Delivery Dispatcher, [schedule(batch)]: a Ready Batch starts
    flushing unless its key is flushing, in which case it is queued. *)
Definition schedule (b : batch) (s : sys) : sys :=
  let k := destinationKey b in
  if key_flushing k (batches s) then
    {| now := now s; nextRid := nextRid s;
       batches := update_batch (bid b) (with_state Ready) (batches s);
       readyQueue := readyQueue s ++ [(k, bid b)];
       reports := reports s; accepted := accepted s |}
  else
    set_batches s (update_batch (bid b) (with_attempt Flushing 0 (now s)) (batches s)).

(** Readiness evaluation. *)
Definition ready_now (t : nat) (b : batch) : bool :=
  (size_threshold (bpolicy b) <=? List.length (records b))%nat
  || (maxWaitTimeMs (bpolicy b) <=? t - createdAt b)%nat.

(** Batch Accumulator, [append(destinationKey, record)]. *)
Definition append (k : key) (p : policy) (r : event_record) (s : sys) : sys :=
  match open_batch k (batches s) with
  | Some b =>
      let b' := add_record r b in
      let s1 := set_batches s (update_batch (bid b) (add_record r) (batches s)) in
      if ready_now (now s) b' then schedule b' s1 else s1
  | None =>
      let b := {| bid := List.length (batches s); destinationKey := k; bpolicy := p;
                  records := [r]; state := Accumulating; createdAt := now s;
                  attempts := 0; nextRetryAt := now s |} in
      let s1 := set_batches s (batches s ++ [b]) in
      if ready_now (now s) b then schedule b s1 else s1
  end.

(** A call [send(executionId, destinationType, config, payload)], with
    optional policy overrides. *)
Record send_call := {
  cExecutionId : nat;
  cDestinationType : string;
  cConfig : config;
  cPayload : payload;
  cOverrides : overrides
}.

Inductive send_error := ValidationError | BufferPressureError.

Definition validate (c : send_call) : option dest_type :=
  match dest_type_of_string (cDestinationType c) with
  | Some t => if required_fields_ok t (cConfig c) && serializable (cPayload c)
              then Some t else None
  | None => None
  end.

(** Records held by open Batches (the open-Batch map's footprint). *)
Definition buffered (s : sys) : nat :=
  fold_right (fun b n => (if is_open b then List.length (records b) else 0) + n)%nat 0 (batches s).

(** Emission Buffer, [enqueue]: synchronous, no delivery work. *)
Definition enqueue (cfg : settings) (c : send_call) (s : sys) : send_error + sys :=
  match validate c with
  | None => inl ValidationError
  | Some t =>
      if (bufferCeiling cfg <=? buffered s)%nat then inl BufferPressureError
      else
        let r := {| rid := nextRid s; executionId := cExecutionId c; destinationType := t;
                    destinationConfig := cConfig c; payload_of := cPayload c;
                    enqueuedAt := now s |} in
        let s1 := {| now := now s; nextRid := S (nextRid s); batches := batches s;
                     readyQueue := readyQueue s; reports := reports s;
                     accepted := accepted s ++ [r] |} in
        inr (append (dest_key t (cConfig c))
                    (apply_overrides (default_policy cfg t) (cOverrides c)) r s1)
  end.

Definition schedule_all (l : list batch) (s : sys) : sys :=
  fold_left (fun s b => schedule b s) l s.

(** Background timer: time passes and every open Batch whose
    [maxWaitTimeMs] has elapsed becomes Ready. *)
Definition tick (dt : nat) (s : sys) : sys :=
  let s1 := {| now := now s + dt; nextRid := nextRid s; batches := batches s;
               readyQueue := readyQueue s; reports := reports s; accepted := accepted s |} in
  schedule_all (filter (fun b => is_open b && ready_now (now s1) b) (batches s1)) s1.

Definition has_execution (e : nat) (b : batch) : bool :=
  existsb (fun r => Nat.eqb (executionId r) e) (records b).

(** [forceFlushForExecution(executionId)] *)
Definition forceFlushForExecution (e : nat) (s : sys) : sys :=
  schedule_all (filter (fun b => is_open b && has_execution e b) (batches s)) s.

(** First queued Batch of key [k], and the queue without it. *)
Fixpoint take_first (k : key) (q : list (key * nat)) : option (nat * list (key * nat)) :=
  match q with
  | [] => None
  | (k', i) :: q' =>
      if key_eqb k' k then Some (i, q')
      else match take_first k q' with
           | Some (j, q'') => Some (j, (k', i) :: q'')
           | None => None
           end
  end.

(** After a terminal outcome the next queued Batch of the key starts. *)
Definition dispatch_next (k : key) (s : sys) : sys :=
  match take_first k (readyQueue s) with
  | Some (i, q') =>
      set_queue (set_batches s (update_batch i (with_attempt Flushing 0 (now s)) (batches s))) q'
  | None => s
  end.

Definition complete (b : batch) (outcome : batch_state) (a : nat) (s : sys) : sys :=
  let s1 := {| now := now s; nextRid := nextRid s;
               batches := update_batch (bid b) (with_attempt outcome a (nextRetryAt b)) (batches s);
               readyQueue := readyQueue s;
               reports := reports s ++ [{| rBatchId := bid b; rKey := destinationKey b;
                                           rOutcome := outcome; rAttempts := a |}];
               accepted := accepted s |} in
  dispatch_next (destinationKey b) s1.

Inductive attempt_outcome := Success | TransientFailure | PermanentFailure.

(** Exponential backoff before attempt [a + 1]. *)
Definition backoff (cfg : settings) (a : nat) : nat := backoffBaseMs cfg * 2 ^ (a - 1).

(** Delivery Worker: one Delivery Attempt of the flushing Batch [b]. *)
Definition worker_attempt (cfg : settings) (b : batch) (o : attempt_outcome) (s : sys) : sys :=
  let a := S (attempts b) in
  match o with
  | Success => complete b Delivered a s
  | PermanentFailure => complete b ExhaustedFailed a s
  | TransientFailure =>
      if (a <? maxAttempts cfg)%nat then
        set_batches s (update_batch (bid b)
                         (with_attempt Flushing a (now s + backoff cfg a)) (batches s))
      else complete b ExhaustedFailed a s
  end.

(** The transitions of the system. *)
Inductive step (cfg : settings) : sys -> sys -> Prop :=
  | StepEnqueue c s s' : enqueue cfg c s = inr s' -> step cfg s s'
  | StepTick dt s : step cfg s (tick dt s)
  | StepForceFlush e s : step cfg s (forceFlushForExecution e s)
  | StepAttempt b o s :
      In b (batches s) -> state b = Flushing -> (nextRetryAt b <= now s)%nat ->
      step cfg s (worker_attempt cfg b o s).

Inductive reachable (cfg : settings) : sys -> Prop :=
  | reach_init : reachable cfg init_sys
  | reach_step s s' : reachable cfg s -> step cfg s s' -> reachable cfg s'.

(** Observations used by the properties. *)

(** The Batches of one Destination Key, in creation order. *)
Definition batches_of_key (k : key) (bs : list batch) : list batch := filter (of_key k) bs.

(** Ids of the queued Batches of [k], in FIFO order. *)
Definition queue_ids (k : key) (s : sys) : list nat :=
  map snd (filter (fun e => key_eqb (fst e) k) (readyQueue s)).

(** Ids of the Batches of [k] with a reported terminal outcome, in
    report order. *)
Definition report_ids (k : key) (s : sys) : list nat :=
  map rBatchId (filter (fun r => key_eqb (rKey r) k) (reports s)).

(** Records accepted for [k], in call order. *)
Definition accepted_for (k : key) (s : sys) : list event_record :=
  filter (fun r => key_eqb (record_key r) k) (accepted s).

Definition lookup_batch (i : nat) (s : sys) : option batch :=
  find (fun b => Nat.eqb (bid b) i) (batches s).

Definition batches_of_ids (s : sys) (ids : list nat) : list batch :=
  flat_map (fun i => match lookup_batch i s with Some b => [b] | None => [] end) ids.

(** Records of the Batches of [k] that ended [Delivered], in the order
    their outcomes were reported. *)
Definition delivered_records (k : key) (s : sys) : list event_record :=
  flat_map (fun b => if batch_state_eqb (state b) Delivered then records b else [])
           (batches_of_ids s (report_ids k s)).

(** Batches of [k] that have not reached a terminal outcome. *)
Definition pending_batches (k : key) (s : sys) : list batch :=
  filter (fun b => negb (is_terminal (state b))) (batches_of_key k (batches s)).

(** Number of Batches of [k] in the [Flushing] state. *)
Definition flushing_count (k : key) (s : sys) : nat :=
  List.length (filter (fun b => of_key k b && batch_state_eqb (state b) Flushing) (batches s)).

(** Delivery work left: an upper bound on the worker steps still needed. *)
Definition work_left (cfg : settings) (b : batch) : nat :=
  match state b with
  | Accumulating => maxAttempts cfg + 2
  | Ready => maxAttempts cfg + 1
  | Flushing => maxAttempts cfg + 1 - attempts b
  | Delivered | ExhaustedFailed => 0
  end.

Definition work_sum (cfg : settings) (bs : list batch) : nat :=
  fold_right (fun b n => work_left cfg b + n) 0 bs.
Definition measure (cfg : settings) (s : sys) : nat := work_sum cfg (batches s).

(** The worker run without new enqueues: wait for the retry time of the
    first flushing Batch and attempt it, with outcomes chosen by the
    environment [oracle]. *)
Definition drain_step (cfg : settings) (oracle : sys -> batch -> attempt_outcome) (s : sys)
  : option sys :=
  match find (fun b => batch_state_eqb (state b) Flushing) (batches s) with
  | None => None
  | Some b =>
      let s1 := tick (nextRetryAt b - now s) s in
      Some (worker_attempt cfg b (oracle s1 b) s1)
  end.

(** Invariants of the reachable states. *)

Definition is_ready_b (b : batch) : bool := batch_state_eqb (state b) Ready.
Definition is_terminal_b (b : batch) : bool := is_terminal (state b).

(** The Batches of one key, in creation order, are: terminal ones, then
    at most one flushing one followed by the queued Ready ones, then at
    most one open one. *)
Definition shape_parts (V T F R A : list batch) : Prop :=
  V = T ++ F ++ R ++ A /\
  Forall (fun b => is_terminal (state b) = true) T /\
  ((F = [] /\ R = []) \/ exists f, F = [f] /\ state f = Flushing) /\
  Forall (fun b => state b = Ready) R /\
  (A = [] \/ exists a, A = [a] /\ state a = Accumulating).

Definition key_inv (V : list batch) (q rids : list nat) (recs : list event_record) : Prop :=
  (exists T F R A, shape_parts V T F R A) /\
  q = map bid (filter is_ready_b V) /\
  rids = map bid (filter is_terminal_b V) /\
  flat_map records V = recs.

Definition size_ok (b : batch) : Prop :=
  (1 <= List.length (records b) <= Nat.max 1 (size_threshold (bpolicy b)))%nat.

Definition attempts_ok (cfg : settings) (b : batch) : Prop :=
  match state b with
  | Accumulating | Ready => attempts b = 0
  | Flushing => attempts b = 0 \/ (attempts b < maxAttempts cfg)%nat
  | Delivered | ExhaustedFailed => (1 <= attempts b <= Nat.max 1 (maxAttempts cfg))%nat
  end.

Definition open_small (b : batch) : Prop :=
  state b = Accumulating -> (List.length (records b) < size_threshold (bpolicy b))%nat.

Record inv_core (cfg : settings) (s : sys) : Prop := {
  ic_ids : map bid (batches s) = seq 0 (List.length (batches s));
  ic_keys : forall k, key_inv (batches_of_key k (batches s)) (queue_ids k s)
                              (report_ids k s) (accepted_for k s);
  ic_batch : forall b, In b (batches s) -> size_ok b /\ attempts_ok cfg b
}.

Definition inv (cfg : settings) (s : sys) : Prop :=
  inv_core cfg s /\ forall b, In b (batches s) -> open_small b.

Fixpoint drain (cfg : settings) (oracle : sys -> batch -> attempt_outcome) (fuel : nat) (s : sys)
  : sys :=
  match fuel with
  | O => s
  | S f => match drain_step cfg oracle s with
           | None => s
           | Some s' => drain cfg oracle f s'
           end
  end.

(** Properties of the Batch updates used by the dispatcher and the worker. *)
Definition key_preserving (f : batch -> batch) : Prop :=
  forall b, destinationKey (f b) = destinationKey b.

Definition bid_preserving (f : batch -> batch) : Prop := forall b, bid (f b) = bid b.

(** An update that keeps a Batch's identity, key, policy and records and
    leaves it out of the [Accumulating] state. *)
Definition plain_update (f : batch -> batch) : Prop :=
  forall b, bid (f b) = bid b /\ destinationKey (f b) = destinationKey b /\
            bpolicy (f b) = bpolicy b /\ records (f b) = records b /\
            state (f b) <> Accumulating.

(** The Batch with id [i] holds [rs] and has left the open state. *)
Definition progressed (i : nat) (rs : list event_record) (bs : list batch) : Prop :=
  exists b, In b bs /\ bid b = i /\ records b = rs /\ state b <> Accumulating.

(** Every Batch carries the delivery mode of its destination type. *)
Definition policy_ok (cfg : settings) (bs : list batch) : Prop :=
  forall b, In b bs -> deliveryMode (bpolicy b) = deliveryMode (default_policy cfg (fst (destinationKey b))).

End Delivery.

(* ===================================================================== *)
(** ** Concrete runs of the delivery model *)
(* ===================================================================== *)

(** Settings and calls used to exercise the model: HTTP (immediate) and
    object-storage (batched, 100 records or 5 s) destinations. *)
Module DeliveryRuns.
Import Delivery.
Local Open Scope list_scope.

Definition pol_immediate : policy :=
  {| maxBatchSize := 1; maxWaitTimeMs := 0; deliveryMode := Immediate |}.
Definition pol_object_storage : policy :=
  {| maxBatchSize := 100; maxWaitTimeMs := 5000; deliveryMode := Batched |}.

Definition cfg_with (ceiling : nat) : settings :=
  {| default_policy := fun t => match t with
                                | ObjectStorage => pol_object_storage
                                | _ => pol_immediate
                                end;
     maxAttempts := 3; backoffBaseMs := 1000; bufferCeiling := ceiling |}.
Definition cfg0 : settings := cfg_with 10000.

Definition http_call (e : nat) : send_call :=
  {| cExecutionId := e; cDestinationType := "http";
     cConfig := [("method", "POST"); ("url", "https://hooks.example/in")];
     cPayload := PObject [("n", PNum (Z.of_nat e))]; cOverrides := no_overrides |}.
Definition storage_call (e : nat) (o : overrides) : send_call :=
  {| cExecutionId := e; cDestinationType := "object-storage";
     cConfig := [("bucket", "logs"); ("keyTemplate", "run"); ("format", "json")];
     cPayload := PStr "row"; cOverrides := o |}.

Definition http_key : key := dest_key Http (cConfig (http_call 0)).
Definition storage_key : key := dest_key ObjectStorage (cConfig (storage_call 0 no_overrides)).

(** The state after an accepted call (the state itself when refused). *)
Definition run_enqueue (cfg : settings) (c : send_call) (s : sys) : sys :=
  match enqueue cfg c s with inr s' => s' | inl _ => s end.

Definition dummy_batch : batch :=
  {| bid := 0; destinationKey := http_key; bpolicy := pol_immediate; records := [];
     state := Accumulating; createdAt := 0; attempts := 0; nextRetryAt := 0 |}.
Definition batch_at (i : nat) (s : sys) : batch := nth i (batches s) dummy_batch.

(** Three HTTP sends of executions 1, 2, 3. *)
Definition h1 : sys := run_enqueue cfg0 (http_call 1) init_sys.
Definition h2 : sys := run_enqueue cfg0 (http_call 2) h1.
Definition h3 : sys := run_enqueue cfg0 (http_call 3) h2.
(** The first HTTP Batch fails transiently, then, 1 s later, permanently. *)
Definition h1_retry : sys := worker_attempt cfg0 (batch_at 0 h1) TransientFailure h1.
Definition h1_later : sys := tick 1000 h1_retry.
Definition h1_failed : sys :=
  worker_attempt cfg0 (batch_at 0 h1_later) PermanentFailure h1_later.
(** One object-storage send of execution 7: an open Batch. *)
Definition o1 : sys := run_enqueue cfg0 (storage_call 7 no_overrides) init_sys.
(** One object-storage send overriding [maxBatchSize] to 0. *)
Definition z1 : sys :=
  run_enqueue cfg0 (storage_call 7 {| oMaxBatchSize := Some 0; oMaxWaitTimeMs := None |})
              init_sys.
(** A buffer ceiling of one record, reached by one object-storage send. *)
Definition cfg_tight : settings := cfg_with 1.
Definition p1 : sys := run_enqueue cfg_tight (storage_call 7 no_overrides) init_sys.
(** Three object-storage sends of executions 1, 2, 3 overriding
    [maxBatchSize] to 2: the second record fills the first Batch, which
    starts flushing, and the third opens a second Batch.  Then execution 3
    is force-flushed (the second Batch is queued behind the first) and
    the worker delivers both Batches. *)
Definition ov2 : overrides := {| oMaxBatchSize := Some 2; oMaxWaitTimeMs := None |}.
Definition m1 : sys := run_enqueue cfg0 (storage_call 1 ov2) init_sys.
Definition m2 : sys := run_enqueue cfg0 (storage_call 2 ov2) m1.
Definition m3 : sys := run_enqueue cfg0 (storage_call 3 ov2) m2.
Definition m3_flushed : sys := forceFlushForExecution 3 m3.
Definition m3_done : sys :=
  drain cfg0 (fun _ _ => Success) (measure cfg0 m3_flushed) m3_flushed.

End DeliveryRuns.

(* ===================================================================== *)
(** * Proofs: JavaScript helpers *)
(* ===================================================================== *)

Module JsProofs.
Import Js.
Local Open Scope list_scope.

Lemma obj_set_fresh (o : list (string * jsval)) k v :
  ~ In k (map fst o) -> obj_set o k v = o ++ [(k, v)].
Proof.
  induction o as [|[k' v'] o IH]; simpl; intros Hn; [reflexivity|].
  destruct (String.eqb_spec k' k) as [->|Hne]; [exfalso; tauto|].
  rewrite IH by tauto. reflexivity.
Qed.

Lemma fold_reduce_filter (props acc : list (string * jsval)) :
  NoDup (map fst props) ->
  (forall k, In k (map fst acc) -> ~ In k (map fst props)) ->
  fold_left reduce_step props acc = acc ++ filter kept props.
Proof.
  revert acc; induction props as [|[k v] props IH]; intros acc Hnd Hdisj; simpl.
  - rewrite app_nil_r; reflexivity.
  - inversion Hnd as [|? ? Hk Hnd']; subst.
    unfold kept at 1; simpl.
    destruct (truthy (emptyStrToUndefined v)) eqn:Ht; simpl.
    + rewrite obj_set_fresh.
      * rewrite IH; [rewrite <- app_assoc; reflexivity|assumption|].
        intros k' Hin. rewrite map_app, in_app_iff in Hin. simpl in Hin.
        destruct Hin as [Hin|[<-|[]]]; [|assumption].
        intros Hin'. apply (Hdisj k' Hin). simpl; tauto.
      * intros Hin. apply (Hdisj k Hin). simpl; tauto.
    + apply IH; [assumption|].
      intros k' Hin Hin'. apply (Hdisj k' Hin). simpl; tauto.
Qed.

Lemma trim_empty : trim "" = "".
Proof. reflexivity. Qed.

Lemma emptyStr_falsy (x : jsval) :
  truthy (emptyStrToUndefined x) = false <->
  x = JUndefined \/ x = JNull \/ x = JBool false \/ x = JNum 0 \/ x = JNaN
  \/ x = JBigInt 0 \/ exists s, x = JStr s /\ trim s = "".
Proof.
  split.
  - destruct x; intros H; try discriminate.
    + left; reflexivity.
    + right; left; reflexivity.
    + destruct b; [discriminate|]. do 2 right; left; reflexivity.
    + simpl in H. apply negb_false_iff, Z.eqb_eq in H; subst. do 3 right; left; reflexivity.
    + do 4 right; left; reflexivity.
    + simpl in H. apply negb_false_iff, Z.eqb_eq in H; subst. do 5 right; left; reflexivity.
    + do 6 right. exists s; split; [reflexivity|].
      destruct (String.eqb_spec (trim s) "") as [E|E]; [exact E|].
      unfold emptyStrToUndefined in H; simpl in H.
      apply String.eqb_neq in E. rewrite E in H. simpl in H.
      apply negb_false_iff, String.eqb_eq in H. subst. discriminate.
  - intros [->|[->|[->|[->|[->|[->|[s0 [-> E]]]]]]]]; try reflexivity.
    unfold emptyStrToUndefined; simpl. rewrite E. reflexivity.
Qed.

(** C8: for a plain object (own keys pairwise distinct, as for every
    JavaScript object) [emptyObjectToUndefined] keeps exactly the
    properties whose value is truthy after [emptyStrToUndefined], i.e. it
    drops [undefined], [null], [false], [0], [NaN], [0n], the empty string
    and white-space-only strings, and returns [undefined] when nothing is
    kept (in particular for an object without keys); a value that is not
    of type object, or that is an array, is returned unchanged. *)
Theorem emptyObjectToUndefined_spec :
  (forall props : list (string * jsval),
      NoDup (map fst props) ->
      emptyObjectToUndefined (JObject props) =
        Normal (match filter kept props with
                | [] => JUndefined
                | l => JObject l
                end))
  /\ (forall x : jsval,
        kept ("", x) = false <->
        x = JUndefined \/ x = JNull \/ x = JBool false \/ x = JNum 0 \/ x = JNaN
        \/ x = JBigInt 0 \/ exists s, x = JStr s /\ trim s = "")
  /\ (forall v : jsval,
        typeof v <> "object" \/ isArray v = true -> emptyObjectToUndefined v = Normal v).
Proof.
  split; [|split].
  - intros props Hnd.
    assert (Hf := fold_reduce_filter props [] Hnd ltac:(simpl; tauto)).
    simpl app in Hf. unfold emptyObjectToUndefined.
    cbn - [fold_left reduce_step]. rewrite Hf.
    destruct props as [|kv props']; [reflexivity|].
    cbn - [filter]. destruct (filter kept (kv :: props')); reflexivity.
  - intros x. apply emptyStr_falsy.
  - intros v [Hv|Hv]; unfold emptyObjectToUndefined.
    + apply String.eqb_neq in Hv. rewrite Hv. reflexivity.
    + rewrite Hv, orb_true_r. reflexivity.
Qed.

(** C9: [emptyObjectToUndefined(null)] throws a TypeError: [typeof null]
    is "object", [null] is no array, and [Object.keys(null)] throws. *)
Theorem emptyObjectToUndefined_null_throws :
  emptyObjectToUndefined JNull = Throw TypeError.
Proof. reflexivity. Qed.

Lemma emptyObjectToUndefined_spec_witness :
  NoDup (map fst [("a"%string, JNum 1); ("b"%string, JStr " ")])
  /\ emptyObjectToUndefined (JObject [("a"%string, JNum 1); ("b"%string, JStr " ")])
     = Normal (JObject [("a"%string, JNum 1)]).
Proof.
  assert (Hnd : NoDup (map fst [("a"%string, JNum 1); ("b"%string, JStr " ")]))
    by (simpl; repeat constructor; simpl; intuition discriminate).
  split; [exact Hnd|].
  rewrite (proj1 emptyObjectToUndefined_spec _ Hnd). vm_compute. reflexivity.
Defined.

End JsProofs.

(* ===================================================================== *)
(** * Proofs: stripe-search-customers *)
(* ===================================================================== *)

Module StripeProofs.
Import Js Stripe.

Lemma build_omits_after (fb : string -> option Z) (p : props) :
  truthy (convertDateToTimestamp fb (createdAfter p)) = false ->
  buildSearchQuery fb p = buildSearchQuery fb (without_createdAfter p).
Proof.
  intros H. unfold buildSearchQuery. destruct p; simpl in *.
  rewrite H. reflexivity.
Qed.

Lemma build_omits_before (fb : string -> option Z) (p : props) :
  truthy (convertDateToTimestamp fb (createdBefore p)) = false ->
  buildSearchQuery fb p = buildSearchQuery fb (without_createdBefore p).
Proof.
  intros H. unfold buildSearchQuery. destruct p; simpl in *.
  rewrite H. reflexivity.
Qed.

(** C10: [convertDateToTimestamp] returns [null] for a missing or empty
    date; a date whose [new Date(...)] is NaN, and the date 1970-01-01
    (timestamp 0), give a falsy timestamp; and whenever the timestamp is
    falsy the created> (created<) clause is left out: the query equals the
    one built without that prop.  This holds whatever the engine's
    fallback date parser is. *)
Theorem stripe_date_filters_omitted (fb : string -> option Z) :
  convertDateToTimestamp fb None = JNull
  /\ convertDateToTimestamp fb (Some "") = JNull
  /\ (forall s : string, date_parse fb (s ++ "T00:00:00Z") = None ->
        truthy (convertDateToTimestamp fb (Some s)) = false)
  /\ convertDateToTimestamp fb (Some "1970-01-01") = JNum 0
  /\ (forall p : props, truthy (convertDateToTimestamp fb (createdAfter p)) = false ->
        buildSearchQuery fb p = buildSearchQuery fb (without_createdAfter p))
  /\ (forall p : props, truthy (convertDateToTimestamp fb (createdBefore p)) = false ->
        buildSearchQuery fb p = buildSearchQuery fb (without_createdBefore p)).
Proof.
  split; [reflexivity|]. split; [reflexivity|]. split; [|split; [reflexivity|split]].
  - intros s Hs. unfold convertDateToTimestamp.
    destruct (prop_truthy (Some s)); [|reflexivity]. rewrite Hs. reflexivity.
  - apply build_omits_after.
  - apply build_omits_before.
Qed.

Lemma stripe_date_filters_omitted_witness :
  date_parse (fun _ => None) ("abc" ++ "T00:00:00Z") = None
  /\ convertDateToTimestamp (fun _ => None) (createdAfter email_search) = JNaN
  /\ buildSearchQuery (fun _ => None) email_search
     = buildSearchQuery (fun _ => None) (without_createdAfter email_search)
  /\ buildSearchQuery (fun _ => None) email_search
     = buildSearchQuery (fun _ => None) (without_createdBefore email_search)
  /\ buildSearchQuery (fun _ => None) email_search = "email=" ++ dq ++ "a@b.c" ++ dq.
Proof.
  destruct (stripe_date_filters_omitted (fun _ => None)) as [_ [_ [Hnan [Hzero [Ha Hb]]]]].
  assert (Hd : date_parse (fun _ => None) ("abc" ++ "T00:00:00Z") = None)
    by (vm_compute; reflexivity).
  split; [exact Hd|]. split; [vm_compute; reflexivity|].
  split; [apply Ha; exact (Hnan "abc" Hd)|].
  split; [apply Hb; change (createdBefore email_search) with (Some "1970-01-01");
          rewrite Hzero; reflexivity|].
  vm_compute. reflexivity.
Defined.

End StripeProofs.

(* ===================================================================== *)
(** * Proofs: Destination Delivery *)
(* ===================================================================== *)

Module DeliveryProofs.
Import Delivery DeliveryRuns.
Local Open Scope nat_scope.
Local Open Scope list_scope.

(** ** Decidable equalities *)

Lemma dest_type_eqb_eq (a b : dest_type) : dest_type_eqb a b = true <-> a = b.
Proof. destruct a, b; simpl; split; intros; congruence. Qed.

Lemma opt_str_eqb_eq (a b : option string) : opt_str_eqb a b = true <-> a = b.
Proof.
  destruct a as [x|], b as [y|]; simpl; split; intros H; try congruence.
  - apply String.eqb_eq in H; congruence.
  - inversion H; apply String.eqb_refl.
Qed.

Lemma list_eqb_eq (a b : list (option string)) : list_eqb opt_str_eqb a b = true <-> a = b.
Proof.
  revert b; induction a as [|x a IH]; destruct b as [|y b]; simpl; split; intros H;
    try congruence.
  - apply andb_true_iff in H as [H1 H2]. apply opt_str_eqb_eq in H1. apply IH in H2. congruence.
  - inversion H; subst. apply andb_true_iff; split; [apply opt_str_eqb_eq|apply IH]; reflexivity.
Qed.

Lemma key_eqb_eq (a b : key) : key_eqb a b = true <-> a = b.
Proof.
  destruct a as [ta la], b as [tb lb]; unfold key_eqb; simpl.
  rewrite andb_true_iff, dest_type_eqb_eq, list_eqb_eq. split; [intros [-> ->]|intros H; inversion H]; auto.
Qed.

Lemma key_eqb_refl (a : key) : key_eqb a a = true.
Proof. apply key_eqb_eq; reflexivity. Qed.

Lemma key_eqb_sym (a b : key) : key_eqb a b = key_eqb b a.
Proof.
  destruct (key_eqb a b) eqn:E, (key_eqb b a) eqn:E'; auto.
  - apply key_eqb_eq in E; subst; rewrite key_eqb_refl in E'; discriminate.
  - apply key_eqb_eq in E'; subst; rewrite key_eqb_refl in E; discriminate.
Qed.

Lemma batch_state_eqb_eq (a b : batch_state) : batch_state_eqb a b = true <-> a = b.
Proof. destruct a, b; simpl; split; intros; congruence. Qed.

(** ** Updating one Batch by id *)

Lemma update_batch_app i f (l1 l2 : list batch) :
  update_batch i f (l1 ++ l2) = update_batch i f l1 ++ update_batch i f l2.
Proof. apply map_app. Qed.

Lemma update_batch_notin i f (l : list batch) :
  ~ In i (map bid l) -> update_batch i f l = l.
Proof.
  induction l as [|b l IH]; simpl; intros Hn; [reflexivity|].
  destruct (Nat.eqb_spec (bid b) i); [exfalso; tauto|]. rewrite IH by tauto. reflexivity.
Qed.

Lemma update_batch_split (pre post : list batch) b f :
  NoDup (map bid (pre ++ b :: post)) ->
  update_batch (bid b) f (pre ++ b :: post) = pre ++ f b :: post.
Proof.
  intros Hnd. rewrite map_app in Hnd. simpl in Hnd.
  apply NoDup_remove_2 in Hnd. rewrite in_app_iff in Hnd.
  rewrite update_batch_app. simpl. rewrite Nat.eqb_refl.
  rewrite !update_batch_notin by tauto. reflexivity.
Qed.

Lemma in_update_batch i f (bs : list batch) b' :
  In b' (update_batch i f bs) ->
  (In b' bs /\ bid b' <> i) \/ (exists b, In b bs /\ bid b = i /\ b' = f b).
Proof.
  unfold update_batch. rewrite in_map_iff. intros [b [Hb Hin]].
  destruct (Nat.eqb_spec (bid b) i) as [E|E].
  - right; exists b; auto.
  - left; subst; auto.
Qed.

Lemma in_update_batch_keep i f (bs : list batch) b :
  In b bs -> bid b <> i -> In b (update_batch i f bs).
Proof.
  intros Hin Hne. unfold update_batch. apply in_map_iff. exists b; split; [|exact Hin].
  apply Nat.eqb_neq in Hne. rewrite Hne. reflexivity.
Qed.

Lemma NoDup_map_filter {A B} (g : A -> B) (P : A -> bool) (l : list A) :
  NoDup (map g l) -> NoDup (map g (filter P l)).
Proof.
  induction l as [|x l IH]; simpl; intros Hnd; [constructor|].
  inversion Hnd as [|? ? Hx Hl]; subst.
  destruct (P x); simpl; [|auto]. constructor; [|auto].
  intros Hin. apply Hx. apply in_map_iff in Hin as [y [Hy Hin]].
  apply in_map_iff. exists y; split; [exact Hy|]. apply filter_In in Hin; tauto.
Qed.

Lemma NoDup_map_inj {A B} (g : A -> B) (l : list A) x y :
  NoDup (map g l) -> In x l -> In y l -> g x = g y -> x = y.
Proof.
  induction l as [|z l IH]; simpl; intros Hnd Hx Hy Heq; [contradiction|].
  inversion Hnd as [|? ? Hz Hl]; subst.
  destruct Hx as [<-|Hx], Hy as [<-|Hy]; auto.
  - exfalso; apply Hz. rewrite Heq. apply in_map; exact Hy.
  - exfalso; apply Hz. rewrite <- Heq. apply in_map; exact Hx.
Qed.

(** ** Batches of one key *)

Lemma with_state_kp st : key_preserving (with_state st).
Proof. intros b; reflexivity. Qed.

Lemma with_attempt_kp st a r : key_preserving (with_attempt st a r).
Proof. intros b; reflexivity. Qed.

Lemma add_record_kp r : key_preserving (add_record r).
Proof. intros b; reflexivity. Qed.

Lemma batches_of_key_update k i f (bs : list batch) :
  key_preserving f ->
  batches_of_key k (update_batch i f bs) = update_batch i f (batches_of_key k bs).
Proof.
  intros Hf. induction bs as [|b bs IH]; simpl; [reflexivity|].
  unfold of_key at 1 2.
  destruct (Nat.eqb_spec (bid b) i) as [E|E]; rewrite ?Hf;
    destruct (key_eqb (destinationKey b) k); simpl; rewrite ?IH;
    try (apply Nat.eqb_eq in E; rewrite E); try (apply Nat.eqb_neq in E; rewrite E);
    reflexivity.
Qed.

Lemma batches_of_key_update_other k f (bs : list batch) b :
  key_preserving f -> NoDup (map bid bs) -> In b bs -> of_key k b = false ->
  batches_of_key k (update_batch (bid b) f bs) = batches_of_key k bs.
Proof.
  intros Hf Hnd Hin Hk. rewrite batches_of_key_update by exact Hf.
  apply update_batch_notin. intros Hin'. apply in_map_iff in Hin' as [x [Hx Hxin]].
  unfold batches_of_key in Hxin. apply filter_In in Hxin as [Hxin Hxk].
  assert (x = b) by (eapply NoDup_map_inj; eauto). subst. congruence.
Qed.

Lemma batches_of_key_update_same k f (bs pre post : list batch) b :
  key_preserving f -> NoDup (map bid bs) ->
  batches_of_key k bs = pre ++ b :: post ->
  batches_of_key k (update_batch (bid b) f bs) = pre ++ f b :: post.
Proof.
  intros Hf Hnd Heq. rewrite batches_of_key_update, Heq by exact Hf.
  apply update_batch_split. rewrite <- Heq. apply NoDup_map_filter; exact Hnd.
Qed.

Lemma batches_of_key_app k (l1 l2 : list batch) :
  batches_of_key k (l1 ++ l2) = batches_of_key k l1 ++ batches_of_key k l2.
Proof. apply filter_app. Qed.

Lemma in_batches_of_key k b (bs : list batch) :
  In b (batches_of_key k bs) <-> In b bs /\ destinationKey b = k.
Proof.
  unfold batches_of_key, of_key. rewrite filter_In, key_eqb_eq. reflexivity.
Qed.

(** ** Shape of the Batches of one key *)

Lemma Forall_filter_nil {A} (P : A -> bool) (Q : A -> Prop) (l : list A) :
  Forall Q l -> (forall x, Q x -> P x = false) -> filter P l = [].
Proof.
  induction 1 as [|x l Hx Hl IH]; simpl; intros HP; [reflexivity|].
  rewrite HP by exact Hx. apply IH, HP.
Qed.

Lemma Forall_filter_all {A} (P : A -> bool) (Q : A -> Prop) (l : list A) :
  Forall Q l -> (forall x, Q x -> P x = true) -> filter P l = l.
Proof.
  induction 1 as [|x l Hx Hl IH]; simpl; intros HP; [reflexivity|].
  rewrite HP by exact Hx. f_equal. apply IH, HP.
Qed.

Lemma shape_in V T F R A b :
  shape_parts V T F R A -> In b V ->
  (In b T /\ is_terminal (state b) = true) \/ (F = [b] /\ state b = Flushing)
  \/ (In b R /\ state b = Ready) \/ (A = [b] /\ state b = Accumulating).
Proof.
  intros (-> & HT & HF & HR & HA) Hin. rewrite !in_app_iff in Hin.
  destruct Hin as [Hin|[Hin|[Hin|Hin]]].
  - left. split; [exact Hin|]. rewrite Forall_forall in HT. apply HT, Hin.
  - right; left. destruct HF as [[-> _]|[f [-> Hf]]]; [contradiction|].
    destruct Hin as [<-|[]]. auto.
  - right; right; left. split; [exact Hin|]. rewrite Forall_forall in HR. apply HR, Hin.
  - right; right; right. destruct HA as [->|[a [-> Ha]]]; [contradiction|].
    destruct Hin as [<-|[]]. auto.
Qed.

Lemma shape_open V T F R A b :
  shape_parts V T F R A -> In b V -> state b = Accumulating -> A = [b].
Proof.
  intros Hs Hin Hst. destruct (shape_in _ _ _ _ _ _ Hs Hin) as [[_ H]|[[_ H]|[[_ H]|[H _]]]];
    try (rewrite Hst in H; discriminate); exact H.
Qed.

Lemma shape_flushing V T F R A b :
  shape_parts V T F R A -> In b V -> state b = Flushing -> F = [b].
Proof.
  intros Hs Hin Hst. destruct (shape_in _ _ _ _ _ _ Hs Hin) as [[_ H]|[[H _]|[[_ H]|[_ H]]]];
    try (rewrite Hst in H; discriminate); exact H.
Qed.

Lemma shape_filter_ready V T F R A :
  shape_parts V T F R A -> filter is_ready_b V = R.
Proof.
  intros (-> & HT & HF & HR & HA). rewrite !filter_app.
  rewrite (Forall_filter_nil _ _ T HT) by (intros x Hx; unfold is_ready_b; destruct (state x); simpl in *; congruence).
  rewrite (Forall_filter_all _ _ R HR) by (intros x Hx; unfold is_ready_b; rewrite Hx; reflexivity).
  destruct HF as [[-> ->]|[f [-> Hf]]]; destruct HA as [->|[a [-> Ha]]]; simpl;
    unfold is_ready_b; rewrite ?Hf, ?Ha; simpl; rewrite ?app_nil_r; reflexivity.
Qed.

Lemma shape_filter_terminal V T F R A :
  shape_parts V T F R A -> filter is_terminal_b V = T.
Proof.
  intros (-> & HT & HF & HR & HA). rewrite !filter_app.
  rewrite (Forall_filter_all _ _ T HT) by (intros x Hx; exact Hx).
  rewrite (Forall_filter_nil _ _ R HR) by (intros x Hx; unfold is_terminal_b; rewrite Hx; reflexivity).
  destruct HF as [[-> ->]|[f [-> Hf]]]; destruct HA as [->|[a [-> Ha]]]; simpl;
    unfold is_terminal_b; rewrite ?Hf, ?Ha; simpl; rewrite ?app_nil_r; reflexivity.
Qed.

Lemma shape_no_flushing V T F R A :
  shape_parts V T F R A ->
  existsb (fun b => batch_state_eqb (state b) Flushing) V = false -> F = [] /\ R = [].
Proof.
  intros Hs Hex. destruct Hs as (HV & HT & [HF|[f [-> Hf]]] & HR & HA); [exact HF|].
  exfalso. rewrite HV in Hex. rewrite !existsb_app in Hex. simpl in Hex.
  rewrite Hf in Hex. simpl in Hex. rewrite orb_true_r in Hex. discriminate.
Qed.

Lemma shape_has_flushing V T F R A :
  shape_parts V T F R A ->
  existsb (fun b => batch_state_eqb (state b) Flushing) V = true ->
  exists f, F = [f] /\ state f = Flushing.
Proof.
  intros Hs Hex. apply existsb_exists in Hex as [f [Hin Hf]].
  apply batch_state_eqb_eq in Hf. exists f. split; [|exact Hf].
  eapply shape_flushing; eauto.
Qed.

Lemma key_flushing_of_key k (bs : list batch) :
  key_flushing k bs = existsb (fun b => batch_state_eqb (state b) Flushing) (batches_of_key k bs).
Proof.
  induction bs as [|b bs IH]; simpl; [reflexivity|].
  unfold key_flushing in *. simpl. rewrite IH.
  destruct (of_key k b); simpl; reflexivity.
Qed.

Lemma open_batch_some k (bs : list batch) b :
  open_batch k bs = Some b -> In b (batches_of_key k bs) /\ state b = Accumulating.
Proof.
  unfold open_batch. intros H. apply find_some in H as [Hin Hp].
  apply andb_true_iff in Hp as [Hk Ho]. split.
  - apply filter_In; auto.
  - apply batch_state_eqb_eq, Ho.
Qed.

Lemma open_batch_none k (bs : list batch) b :
  open_batch k bs = None -> In b (batches_of_key k bs) -> state b <> Accumulating.
Proof.
  unfold open_batch. intros H Hin Hst. apply filter_In in Hin as [Hin Hk].
  apply (find_none _ _ H) in Hin. unfold is_open in Hin. rewrite Hk, Hst in Hin. discriminate.
Qed.

Lemma shape_no_open V T F R A :
  shape_parts V T F R A -> (forall b, In b V -> state b <> Accumulating) -> A = [].
Proof.
  intros Hs Hno. destruct Hs as (HV & HT & HF & HR & [HA|[a [-> Ha]]]); [exact HA|].
  exfalso. apply (Hno a); [|exact Ha]. rewrite HV. rewrite !in_app_iff. simpl; tauto.
Qed.

(** ** Invariant toolkit *)

Lemma key_inv_intro V T F R A q rids recs :
  shape_parts V T F R A -> q = map bid R -> rids = map bid T -> flat_map records V = recs ->
  key_inv V q rids recs.
Proof.
  intros Hs Hq Hr Hrec. split; [exists T, F, R, A; exact Hs|].
  rewrite (shape_filter_ready _ _ _ _ _ Hs), (shape_filter_terminal _ _ _ _ _ Hs). auto.
Qed.

Lemma key_inv_elim V T F R A q rids recs :
  key_inv V q rids recs -> shape_parts V T F R A ->
  q = map bid R /\ rids = map bid T /\ flat_map records V = recs.
Proof.
  intros (_ & Hq & Hr & Hrec) Hs.
  rewrite (shape_filter_ready _ _ _ _ _ Hs) in Hq. rewrite (shape_filter_terminal _ _ _ _ _ Hs) in Hr.
  auto.
Qed.

Lemma ids_nodup (bs : list batch) : map bid bs = seq 0 (List.length bs) -> NoDup (map bid bs).
Proof. intros ->. apply seq_NoDup. Qed.

Lemma map_bid_update i f (bs : list batch) :
  bid_preserving f -> map bid (update_batch i f bs) = map bid bs.
Proof.
  intros Hf. unfold update_batch. rewrite map_map. apply map_ext. intros b.
  destruct (bid b =? i); [apply Hf|reflexivity].
Qed.

Lemma length_update i f (bs : list batch) : List.length (update_batch i f bs) = List.length bs.
Proof. apply length_map. Qed.

Lemma queue_ids_snoc k k0 i (q : list (key * nat)) :
  map snd (filter (fun e => key_eqb (fst e) k) (q ++ [(k0, i)]))
  = map snd (filter (fun e => key_eqb (fst e) k) q) ++ (if key_eqb k0 k then [i] else []).
Proof. rewrite filter_app, map_app. simpl. destruct (key_eqb k0 k); reflexivity. Qed.

Lemma report_ids_snoc k r (rs : list report) :
  map rBatchId (filter (fun x => key_eqb (rKey x) k) (rs ++ [r]))
  = map rBatchId (filter (fun x => key_eqb (rKey x) k) rs)
    ++ (if key_eqb (rKey r) k then [rBatchId r] else []).
Proof. rewrite filter_app, map_app. simpl. destruct (key_eqb (rKey r) k); reflexivity. Qed.

Lemma flat_map_records_snoc (l : list batch) b :
  flat_map records (l ++ [b]) = flat_map records l ++ records b.
Proof. rewrite flat_map_app. simpl. rewrite app_nil_r. reflexivity. Qed.

Lemma with_state_bp st : bid_preserving (with_state st).
Proof. intros b; reflexivity. Qed.

Lemma with_attempt_bp st a r : bid_preserving (with_attempt st a r).
Proof. intros b; reflexivity. Qed.

Lemma add_record_bp r : bid_preserving (add_record r).
Proof. intros b; reflexivity. Qed.

Create HintDb delivery.
#[local] Hint Resolve with_state_kp with_attempt_kp add_record_kp
  with_state_bp with_attempt_bp add_record_bp : delivery.

Lemma shape_app4 (T F R A : list batch) : T ++ F ++ R ++ A = (T ++ F ++ R) ++ A.
Proof. rewrite !app_assoc. reflexivity. Qed.

Lemma in_batches_of_key_in k b (bs : list batch) :
  In b (batches_of_key k bs) -> In b bs.
Proof. intros H. apply in_batches_of_key in H; tauto. Qed.

Lemma of_key_other k k' b :
  destinationKey b = k -> key_eqb k k' = false -> of_key k' b = false.
Proof. intros <- H. unfold of_key. exact H. Qed.

(** ** The dispatcher *)

Lemma schedule_inv cfg s b :
  inv_core cfg s -> In b (batches s) -> state b = Accumulating ->
  (forall b', In b' (batches s) -> bid b' <> bid b -> open_small b') ->
  inv cfg (schedule b s).
Proof.
  intros [Hids Hkeys Hbat] Hin Hst Hsmall.
  pose proof (ids_nodup _ Hids) as Hnd.
  remember (destinationKey b) as k eqn:Hk.
  destruct (Hkeys k) as [[T [F [R [A Hsh]]]] _].
  assert (HinV : In b (batches_of_key k (batches s))) by (apply in_batches_of_key; auto).
  assert (HA : A = [b]) by (eapply shape_open; eauto). subst A.
  destruct (key_inv_elim _ _ _ _ _ _ _ _ (Hkeys k) Hsh) as (Hq & Hr & Hrec).
  unfold queue_ids, report_ids, accepted_for in Hq, Hr, Hrec.
  pose proof Hsh as (HV & HT & HF & HR & _).
  assert (Hb0 : attempts b = 0)
    by (destruct (Hbat b Hin) as [_ Ha]; unfold attempts_ok in Ha; rewrite Hst in Ha; exact Ha).
  unfold schedule. rewrite <- Hk, key_flushing_of_key.
  destruct (existsb _ (batches_of_key k (batches s))) eqn:Hfl.
  - destruct (shape_has_flushing _ _ _ _ _ Hsh Hfl) as [f [HFf Hf]]. subst F.
    assert (Hsame : batches_of_key k (update_batch (bid b) (with_state Ready) (batches s))
                    = (T ++ [f] ++ R) ++ [with_state Ready b]).
    { apply batches_of_key_update_same with (post := []); auto with delivery.
      rewrite HV, shape_app4. reflexivity. }
    split; [split|].
    + simpl. rewrite map_bid_update, length_update by auto with delivery. exact Hids.
    + intros k'. unfold queue_ids, report_ids, accepted_for. simpl.
      rewrite queue_ids_snoc.
      destruct (key_eqb k k') eqn:Ek.
      * apply key_eqb_eq in Ek. subst k'. rewrite Hsame.
        apply key_inv_intro with (T := T) (F := [f]) (R := R ++ [with_state Ready b]) (A := []).
        -- split; [rewrite !app_assoc, app_nil_r; reflexivity|].
           split; [exact HT|]. split; [right; exists f; auto|].
           split; [apply Forall_app; split; [exact HR|constructor; [reflexivity|constructor]]|].
           left; reflexivity.
        -- rewrite Hq, map_app. reflexivity.
        -- exact Hr.
        -- rewrite flat_map_records_snoc. rewrite <- Hrec, HV, shape_app4, flat_map_records_snoc.
           reflexivity.
      * rewrite batches_of_key_update_other by solve [auto with delivery | eapply of_key_other; [symmetry; exact Hk | exact Ek]].
        rewrite app_nil_r. apply (Hkeys k').
    + intros b' Hb'. apply in_update_batch in Hb' as [[Hb' _]|[b1 [Hb1 [Hid ->]]]];
        [apply Hbat, Hb'|].
      assert (b1 = b) by (eapply NoDup_map_inj; eauto). subst b1.
      destruct (Hbat b Hin) as [Hsz _]. split; [exact Hsz|]. exact Hb0.
    + intros b' Hb'. simpl in Hb'.
      apply in_update_batch in Hb' as [[Hb' Hne]|[b1 [Hb1 [Hid ->]]]]; [apply Hsmall; auto|].
      intros H; discriminate.
  - destruct (shape_no_flushing _ _ _ _ _ Hsh Hfl) as [-> ->].
    assert (Hsame : batches_of_key k (update_batch (bid b) (with_attempt Flushing 0 (now s)) (batches s))
                    = T ++ [with_attempt Flushing 0 (now s) b]).
    { apply batches_of_key_update_same with (post := []); auto with delivery. }
    split; [split|].
    + simpl. rewrite map_bid_update, length_update by auto with delivery. exact Hids.
    + intros k'. unfold queue_ids, report_ids, accepted_for. simpl.
      destruct (key_eqb k k') eqn:Ek.
      * apply key_eqb_eq in Ek. subst k'. rewrite Hsame.
        apply key_inv_intro with (T := T) (F := [with_attempt Flushing 0 (now s) b]) (R := []) (A := []).
        -- split; [rewrite app_nil_r; reflexivity|].
           split; [exact HT|]. split; [right; eexists; split; reflexivity|].
           split; [constructor|left; reflexivity].
        -- rewrite Hq. reflexivity.
        -- exact Hr.
        -- rewrite flat_map_records_snoc. rewrite <- Hrec, HV. simpl.
           rewrite flat_map_records_snoc. reflexivity.
      * rewrite batches_of_key_update_other by solve [auto with delivery | eapply of_key_other; [symmetry; exact Hk | exact Ek]].
        apply (Hkeys k').
    + intros b' Hb'. apply in_update_batch in Hb' as [[Hb' _]|[b1 [Hb1 [Hid ->]]]];
        [apply Hbat, Hb'|].
      assert (b1 = b) by (eapply NoDup_map_inj; eauto). subst b1.
      destruct (Hbat b Hin) as [Hsz _]. split; [exact Hsz|]. left; reflexivity.
    + intros b' Hb'. simpl in Hb'.
      apply in_update_batch in Hb' as [[Hb' Hne]|[b1 [Hb1 [Hid ->]]]]; [apply Hsmall; auto|].
      intros H; discriminate.
Qed.

Lemma plain_with_state st : st <> Accumulating -> plain_update (with_state st).
Proof. intros H b. repeat split; exact H. Qed.

Lemma plain_with_attempt st a t : st <> Accumulating -> plain_update (with_attempt st a t).
Proof. intros H b. repeat split; exact H. Qed.

Lemma schedule_batches b s :
  exists g, plain_update g /\ batches (schedule b s) = update_batch (bid b) g (batches s).
Proof.
  unfold schedule. destruct (key_flushing _ _); simpl; eexists; split; try reflexivity;
    [apply plain_with_state|apply plain_with_attempt]; discriminate.
Qed.

Lemma schedule_all_inv cfg (l : list batch) s :
  inv cfg s ->
  (forall b, In b l -> In b (batches s) /\ state b = Accumulating) ->
  NoDup (map bid l) ->
  inv cfg (schedule_all l s).
Proof.
  revert s; induction l as [|b l IH]; intros s Hinv Hl Hnd; simpl; [exact Hinv|].
  inversion Hnd as [|? ? Hb Hnd']; subst.
  apply IH; [| |exact Hnd'].
  - destruct (Hl b (or_introl eq_refl)) as [Hin Hst].
    destruct Hinv as [Hc Hsmall].
    apply schedule_inv; auto.
  - intros b' Hb'. destruct (Hl b' (or_intror Hb')) as [Hin Hst].
    destruct (schedule_batches b s) as [g [_ ->]]. split; [|exact Hst].
    apply in_update_batch_keep; [exact Hin|].
    intros E. apply Hb. rewrite <- E. apply in_map; exact Hb'.
Qed.

Lemma inv_same_fields cfg s s' :
  batches s' = batches s -> readyQueue s' = readyQueue s -> reports s' = reports s ->
  accepted s' = accepted s -> inv cfg s -> inv cfg s'.
Proof.
  intros Hb Hq Hr Ha [[Hids Hkeys Hbat] Hsmall].
  split; [split|]; [rewrite Hb; exact Hids
                   | intros k; unfold queue_ids, report_ids, accepted_for;
                     rewrite Hb, Hq, Hr, Ha; apply Hkeys
                   | rewrite Hb; exact Hbat | rewrite Hb; exact Hsmall].
Qed.

Lemma filter_open_nodup cfg s (P : batch -> bool) :
  inv cfg s -> NoDup (map bid (filter P (batches s))).
Proof.
  intros [[Hids _ _] _]. apply NoDup_map_filter, ids_nodup, Hids.
Qed.

Lemma tick_inv cfg dt s : inv cfg s -> inv cfg (tick dt s).
Proof.
  intros Hinv. unfold tick.
  set (s1 := {| now := now s + dt; nextRid := nextRid s; batches := batches s;
                readyQueue := readyQueue s; reports := reports s; accepted := accepted s |}).
  assert (Hinv1 : inv cfg s1) by (apply (inv_same_fields cfg s); auto).
  apply schedule_all_inv; [exact Hinv1| |eapply filter_open_nodup; exact Hinv1].
  intros b Hb. apply filter_In in Hb as [Hin Hp]. apply andb_true_iff in Hp as [Ho _].
  split; [exact Hin|]. apply batch_state_eqb_eq, Ho.
Qed.

Lemma forceFlush_inv cfg e s : inv cfg s -> inv cfg (forceFlushForExecution e s).
Proof.
  intros Hinv. unfold forceFlushForExecution.
  apply schedule_all_inv; [exact Hinv| |eapply filter_open_nodup; exact Hinv].
  intros b Hb. apply filter_In in Hb as [Hin Hp]. apply andb_true_iff in Hp as [Ho _].
  split; [exact Hin|]. apply batch_state_eqb_eq, Ho.
Qed.

(** ** The accumulator *)

Lemma accepted_snoc k k' (l : list event_record) r :
  record_key r = k ->
  filter (fun x => key_eqb (record_key x) k') (l ++ [r])
  = filter (fun x => key_eqb (record_key x) k') l ++ (if key_eqb k k' then [r] else []).
Proof. intros Hk. rewrite filter_app. simpl. rewrite Hk. destruct (key_eqb k k'); reflexivity. Qed.

Lemma finish_append cfg s b :
  inv_core cfg s -> In b (batches s) -> state b = Accumulating ->
  (forall b', In b' (batches s) -> bid b' <> bid b -> open_small b') ->
  inv cfg (if ready_now (now s) b then schedule b s else s).
Proof.
  intros Hc Hin Hst Hsmall. pose proof Hc as [Hids _ _].
  destruct (ready_now (now s) b) eqn:Er; [apply schedule_inv; auto|].
  split; [exact Hc|]. intros b' Hb'.
  destruct (Nat.eq_dec (bid b') (bid b)) as [E|E]; [|apply Hsmall; auto].
  assert (b' = b) by (eapply NoDup_map_inj; [apply ids_nodup, Hids|exact Hb'|exact Hin|exact E]).
  subst b'. intros _. unfold ready_now in Er. apply orb_false_iff in Er as [E1 _].
  apply Nat.leb_gt in E1. exact E1.
Qed.

Lemma append_inv cfg k p r s0 s1 :
  inv cfg s0 -> batches s1 = batches s0 -> readyQueue s1 = readyQueue s0 ->
  reports s1 = reports s0 -> accepted s1 = accepted s0 ++ [r] -> record_key r = k ->
  inv cfg (append k p r s1).
Proof.
  intros [[Hids Hkeys Hbat] Hsmall] Hb Hq Hr Ha Hk.
  pose proof (ids_nodup _ Hids) as Hnd.
  destruct (Hkeys k) as [[T [F [R [A Hsh]]]] _].
  destruct (key_inv_elim _ _ _ _ _ _ _ _ (Hkeys k) Hsh) as (HqT & HrT & Hrec).
  unfold queue_ids, report_ids, accepted_for in HqT, HrT, Hrec.
  pose proof Hsh as (HV & HT & HF & HR & HA).
  unfold append. cbv zeta. rewrite Hb.
  destruct (open_batch k (batches s0)) as [b|] eqn:Eo.
  - destruct (open_batch_some _ _ _ Eo) as [HinV Hst].
    assert (HA' : A = [b]) by (eapply shape_open; eauto). subst A.
    assert (Hin : In b (batches s0)) by (eapply in_batches_of_key_in; eauto).
    assert (Hkb : destinationKey b = k) by (apply in_batches_of_key in HinV; tauto).
    assert (Hsame : batches_of_key k (update_batch (bid b) (add_record r) (batches s0))
                    = (T ++ F ++ R) ++ [add_record r b]).
    { apply batches_of_key_update_same with (post := []); auto with delivery.
      rewrite HV, shape_app4. reflexivity. }
    apply (finish_append cfg (set_batches s1 (update_batch (bid b) (add_record r) (batches s0)))
                         (add_record r b)).
    + split.
      * simpl. rewrite map_bid_update, length_update by auto with delivery. exact Hids.
      * intros k'. unfold queue_ids, report_ids, accepted_for. simpl.
        rewrite Hq, Hr, Ha, (accepted_snoc k) by exact Hk.
        destruct (key_eqb k k') eqn:Ek.
        -- apply key_eqb_eq in Ek. subst k'. rewrite Hsame.
           apply key_inv_intro with (T := T) (F := F) (R := R) (A := [add_record r b]).
           ++ split; [rewrite <- shape_app4; reflexivity|].
              split; [exact HT|]. split; [exact HF|]. split; [exact HR|].
              right; eexists; split; [reflexivity|exact Hst].
           ++ exact HqT.
           ++ exact HrT.
           ++ rewrite flat_map_records_snoc, <- Hrec, HV, shape_app4, flat_map_records_snoc.
              simpl. rewrite app_assoc. reflexivity.
        -- rewrite batches_of_key_update_other
             by solve [auto with delivery | eapply of_key_other; [exact Hkb | exact Ek]].
           rewrite app_nil_r. apply (Hkeys k').
      * intros b' Hb'. simpl in Hb'.
        apply in_update_batch in Hb' as [[Hb' _]|[b1 [Hb1 [Hid ->]]]]; [apply Hbat, Hb'|].
        assert (b1 = b) by (eapply NoDup_map_inj; eauto). subst b1.
        destruct (Hbat b Hin) as [_ Hat]. specialize (Hsmall b Hin Hst).
        split.
        -- unfold size_ok. change (records (add_record r b)) with (records b ++ [r]).
           change (bpolicy (add_record r b)) with (bpolicy b).
           rewrite length_app. cbn [List.length]. lia.
        -- unfold attempts_ok in *. cbn [state attempts add_record]. rewrite Hst in *. exact Hat.
    + simpl. unfold update_batch. apply in_map_iff. exists b. rewrite Nat.eqb_refl. auto.
    + exact Hst.
    + intros b' Hb' Hne. simpl in Hb'.
      apply in_update_batch in Hb' as [[Hb' _]|[b1 [Hb1 [Hid ->]]]]; [apply Hsmall, Hb'|].
      exfalso. apply Hne. simpl. congruence.
  - assert (HA' : A = []).
    { eapply shape_no_open; [exact Hsh|]. intros b' Hb'. eapply open_batch_none; eauto. }
    subst A.
    set (nb := {| bid := List.length (batches s0); destinationKey := k; bpolicy := p;
                  records := [r]; state := Accumulating; createdAt := now s1;
                  attempts := 0; nextRetryAt := now s1 |}).
    assert (Hnew : forall k', batches_of_key k' (batches s0 ++ [nb])
                   = batches_of_key k' (batches s0) ++ (if key_eqb k k' then [nb] else [])).
    { intros k'. rewrite batches_of_key_app. unfold batches_of_key at 2. simpl.
      unfold of_key. simpl. destruct (key_eqb k k'); reflexivity. }
    apply (finish_append cfg (set_batches s1 (batches s0 ++ [nb])) nb).
    + split.
      * simpl. rewrite map_app, Hids, length_app. simpl.
        rewrite Nat.add_1_r, seq_S. reflexivity.
      * intros k'. unfold queue_ids, report_ids, accepted_for. simpl.
        rewrite Hq, Hr, Ha, (accepted_snoc k) by exact Hk. rewrite Hnew.
        destruct (key_eqb k k') eqn:Ek.
        -- apply key_eqb_eq in Ek. subst k'.
           apply key_inv_intro with (T := T) (F := F) (R := R) (A := [nb]).
           ++ split; [rewrite HV, app_nil_r, <- !app_assoc; reflexivity|].
              split; [exact HT|]. split; [exact HF|]. split; [exact HR|].
              right; eexists; split; reflexivity.
           ++ exact HqT.
           ++ exact HrT.
           ++ rewrite flat_map_records_snoc, <- Hrec. reflexivity.
        -- rewrite !app_nil_r. apply (Hkeys k').
      * intros b' Hb'. simpl in Hb'.
        apply in_app_iff in Hb' as [Hb'|[<-|[]]]; [apply Hbat, Hb'|].
        split; [unfold size_ok, nb; cbn [records List.length]; lia|reflexivity].
    + simpl. apply in_or_app. right. left. reflexivity.
    + reflexivity.
    + intros b' Hb' Hne. simpl in Hb'.
      apply in_app_iff in Hb' as [Hb'|[<-|[]]]; [apply Hsmall, Hb'|].
      exfalso. apply Hne. reflexivity.
Qed.

Lemma enqueue_inv cfg c s s' : inv cfg s -> enqueue cfg c s = inr s' -> inv cfg s'.
Proof.
  intros Hinv He. unfold enqueue in He.
  destruct (validate c) as [t|]; [|discriminate].
  destruct (_ <=? _)%nat; [discriminate|].
  injection He as <-. eapply append_inv; [exact Hinv|reflexivity..].
Qed.

(** ** The worker *)

Ltac records_eq := rewrite !map_app; simpl; rewrite ?map_app, <- ?app_assoc; reflexivity.

Lemma take_first_some k q i q' :
  take_first k q = Some (i, q') -> forall k',
  map snd (filter (fun e => key_eqb (fst e) k') q)
  = (if key_eqb k k' then [i] else []) ++ map snd (filter (fun e => key_eqb (fst e) k') q').
Proof.
  revert q'; induction q as [|[k1 j] q IH]; intros q' Ht k'; simpl in Ht; [discriminate|].
  destruct (key_eqb k1 k) eqn:E1.
  - injection Ht as <- <-. apply key_eqb_eq in E1; subst k1. simpl.
    destruct (key_eqb k k'); reflexivity.
  - destruct (take_first k q) as [[j' q'']|] eqn:Et; [|discriminate].
    injection Ht as <- <-. specialize (IH _ eq_refl k'). simpl.
    destruct (key_eqb k1 k') eqn:E2; simpl; rewrite IH;
      destruct (key_eqb k k') eqn:E3; try reflexivity.
    apply key_eqb_eq in E2, E3. subst. rewrite key_eqb_refl in E1. discriminate.
Qed.

Lemma take_first_none k q :
  take_first k q = None -> map snd (filter (fun e => key_eqb (fst e) k) q) = [].
Proof.
  induction q as [|[k1 j] q IH]; simpl; intros Ht; [reflexivity|].
  destruct (key_eqb k1 k); [discriminate|].
  destruct (take_first k q) as [[]|]; [discriminate|]. apply IH; reflexivity.
Qed.

Lemma flat_map_records_map (l1 l2 : list batch) :
  map records l1 = map records l2 -> flat_map records l1 = flat_map records l2.
Proof. rewrite !flat_map_concat_map. intros ->. reflexivity. Qed.

Lemma retry_inv cfg s b a t :
  inv cfg s -> In b (batches s) -> state b = Flushing -> (a < maxAttempts cfg)%nat ->
  inv cfg (set_batches s (update_batch (bid b) (with_attempt Flushing a t) (batches s))).
Proof.
  intros [[Hids Hkeys Hbat] Hsmall] Hin Hst Ha.
  pose proof (ids_nodup _ Hids) as Hnd.
  remember (destinationKey b) as k eqn:Hk.
  destruct (Hkeys k) as [[T [F [R [A Hsh]]]] _].
  assert (HinV : In b (batches_of_key k (batches s))) by (apply in_batches_of_key; auto).
  assert (HF : F = [b]) by (eapply shape_flushing; eauto). subst F.
  destruct (key_inv_elim _ _ _ _ _ _ _ _ (Hkeys k) Hsh) as (HqT & HrT & Hrec).
  unfold queue_ids, report_ids, accepted_for in HqT, HrT, Hrec.
  pose proof Hsh as (HV & HT & _ & HR & HA).
  assert (Hsame : batches_of_key k (update_batch (bid b) (with_attempt Flushing a t) (batches s))
                  = T ++ with_attempt Flushing a t b :: R ++ A).
  { apply batches_of_key_update_same; auto with delivery. }
  split; [split|].
  - simpl. rewrite map_bid_update, length_update by auto with delivery. exact Hids.
  - intros k'. unfold queue_ids, report_ids, accepted_for. simpl.
    destruct (key_eqb k k') eqn:Ek.
    + apply key_eqb_eq in Ek. subst k'. rewrite Hsame.
      apply key_inv_intro with (T := T) (F := [with_attempt Flushing a t b]) (R := R) (A := A).
      * split; [reflexivity|]. split; [exact HT|].
        split; [right; eexists; split; reflexivity|]. split; [exact HR|exact HA].
      * exact HqT.
      * exact HrT.
      * rewrite <- Hrec, HV. apply flat_map_records_map. records_eq.
    + rewrite batches_of_key_update_other
        by solve [auto with delivery | eapply of_key_other; [symmetry; exact Hk | exact Ek]].
      apply (Hkeys k').
  - intros x Hx. simpl in Hx.
    apply in_update_batch in Hx as [[Hx _]|[b1 [Hb1 [Hid ->]]]]; [apply Hbat, Hx|].
    assert (b1 = b) by (eapply NoDup_map_inj; eauto). subst b1.
    destruct (Hbat b Hin) as [Hsz _]. split; [exact Hsz|].
    unfold attempts_ok. simpl. right. exact Ha.
  - intros x Hx. simpl in Hx.
    apply in_update_batch in Hx as [[Hx _]|[b1 [Hb1 [Hid ->]]]]; [apply Hsmall, Hx|].
    intros E; discriminate.
Qed.

Lemma complete_inv cfg s b st a :
  inv cfg s -> In b (batches s) -> state b = Flushing -> is_terminal st = true ->
  (1 <= a <= Nat.max 1 (maxAttempts cfg))%nat ->
  inv cfg (complete b st a s).
Proof.
  intros [[Hids Hkeys Hbat] Hsmall] Hin Hst Hterm Ha.
  pose proof (ids_nodup _ Hids) as Hnd.
  remember (destinationKey b) as k eqn:Hk.
  destruct (Hkeys k) as [[T [F [R [A Hsh]]]] _].
  assert (HinV : In b (batches_of_key k (batches s))) by (apply in_batches_of_key; auto).
  assert (HF : F = [b]) by (eapply shape_flushing; eauto). subst F.
  destruct (key_inv_elim _ _ _ _ _ _ _ _ (Hkeys k) Hsh) as (HqT & HrT & Hrec).
  unfold queue_ids, report_ids, accepted_for in HqT, HrT, Hrec.
  pose proof Hsh as (HV & HT & _ & HR & HA).
  assert (Hsame1 : batches_of_key k (update_batch (bid b) (with_attempt st a (nextRetryAt b)) (batches s))
                   = T ++ with_attempt st a (nextRetryAt b) b :: R ++ A).
  { apply batches_of_key_update_same; auto with delivery. }
  assert (Hother1 : forall k', key_eqb k k' = false ->
            batches_of_key k' (update_batch (bid b) (with_attempt st a (nextRetryAt b)) (batches s))
            = batches_of_key k' (batches s)).
  { intros k' Ek. apply batches_of_key_update_other; auto with delivery.
    eapply of_key_other; [symmetry; exact Hk|exact Ek]. }
  assert (Hterm1 : Forall (fun x => is_terminal (state x) = true)
                     (T ++ [with_attempt st a (nextRetryAt b) b])).
  { apply Forall_app; split; [exact HT|constructor; [exact Hterm|constructor]]. }
  assert (Hrids : forall l, map rBatchId l = map bid T ->
            map rBatchId l ++ [bid b] = map bid (T ++ [with_attempt st a (nextRetryAt b) b])).
  { intros l ->. rewrite map_app. reflexivity. }
  unfold complete, dispatch_next. cbv zeta. cbn [readyQueue]. rewrite <- Hk.
  remember (update_batch (bid b) (with_attempt st a (nextRetryAt b)) (batches s)) as bs1 eqn:Ebs1.
  assert (Hids1 : map bid bs1 = seq 0 (List.length bs1))
    by (subst bs1; rewrite map_bid_update, length_update by auto with delivery; exact Hids).
  pose proof (ids_nodup _ Hids1) as Hnd1.
  assert (Hbat1 : forall x, In x bs1 -> size_ok x /\ attempts_ok cfg x).
  { intros x Hx. subst bs1.
    apply in_update_batch in Hx as [[Hx _]|[b1 [Hb1 [Hid ->]]]]; [apply Hbat, Hx|].
    assert (b1 = b) by (eapply (NoDup_map_inj bid (batches s)); eauto). subst b1.
    destruct (Hbat b Hin) as [Hsz _]. split; [exact Hsz|].
    unfold attempts_ok. cbn [state attempts with_attempt].
    destruct st; simpl in Hterm; try discriminate; exact Ha. }
  assert (Hsmall1 : forall x, In x bs1 -> open_small x).
  { intros x Hx. subst bs1.
    apply in_update_batch in Hx as [[Hx _]|[b1 [Hb1 [Hid ->]]]]; [apply Hsmall, Hx|].
    unfold open_small. cbn [state with_attempt]. intros E. subst st. discriminate. }
  destruct (take_first k (readyQueue s)) as [[i q']|] eqn:Et.
  - pose proof (take_first_some _ _ _ _ Et) as Hq'.
    assert (HR' : map bid R = i :: map snd (filter (fun e => key_eqb (fst e) k) q')).
    { rewrite <- HqT, Hq', key_eqb_refl. reflexivity. }
    destruct R as [|r0 R']; [discriminate|]. injection HR' as Hi HR'. subst i.
    apply Forall_cons_iff in HR as [Hr0 HR''].
    assert (Hin0 : In r0 (batches_of_key k bs1)).
    { rewrite Hsame1. apply in_or_app. right. simpl. auto. }
    assert (Hk0 : destinationKey r0 = k) by (apply in_batches_of_key in Hin0; tauto).
    apply in_batches_of_key_in in Hin0.
    assert (Hsame2 : batches_of_key k (update_batch (bid r0) (with_attempt Flushing 0 (now s)) bs1)
                     = (T ++ [with_attempt st a (nextRetryAt b) b])
                       ++ with_attempt Flushing 0 (now s) r0 :: R' ++ A).
    { apply batches_of_key_update_same; auto with delivery.
      rewrite Hsame1, <- app_assoc. reflexivity. }
    split; [split|].
    + simpl. rewrite map_bid_update, length_update by auto with delivery. exact Hids1.
    + intros k'. unfold queue_ids, report_ids, accepted_for. simpl.
      rewrite report_ids_snoc. cbn [rKey rBatchId].
      destruct (key_eqb k k') eqn:Ek.
      * apply key_eqb_eq in Ek. subst k'. rewrite Hsame2.
        apply key_inv_intro with (T := T ++ [with_attempt st a (nextRetryAt b) b])
          (F := [with_attempt Flushing 0 (now s) r0]) (R := R') (A := A).
        -- split; [reflexivity|]. split; [exact Hterm1|].
           split; [right; eexists; split; reflexivity|]. split; [exact HR''|exact HA].
        -- symmetry. exact HR'.
        -- apply Hrids. exact HrT.
        -- rewrite <- Hrec, HV. apply flat_map_records_map. records_eq.
      * rewrite batches_of_key_update_other
          by solve [auto with delivery | eapply of_key_other; [exact Hk0 | exact Ek]].
        subst bs1. rewrite Hother1 by exact Ek.
        pose proof (Hq' k') as Hqk. rewrite Ek in Hqk. simpl in Hqk. rewrite <- Hqk.
        rewrite app_nil_r. apply (Hkeys k').
    + intros x Hx. simpl in Hx.
      apply in_update_batch in Hx as [[Hx _]|[b1 [Hb1 [Hid ->]]]]; [apply Hbat1, Hx|].
      destruct (Hbat1 b1 Hb1) as [Hsz _]. split; [exact Hsz|].
      unfold attempts_ok. simpl. left. reflexivity.
    + intros x Hx. simpl in Hx.
      apply in_update_batch in Hx as [[Hx _]|[b1 [Hb1 [Hid ->]]]]; [apply Hsmall1, Hx|].
      intros E; discriminate.
  - pose proof (take_first_none _ _ Et) as Hq0.
    destruct R as [|r0 R']; [|rewrite Hq0 in HqT; discriminate].
    split; [split|].
    + simpl. exact Hids1.
    + intros k'. unfold queue_ids, report_ids, accepted_for. simpl.
      rewrite report_ids_snoc. cbn [rKey rBatchId].
      destruct (key_eqb k k') eqn:Ek.
      * apply key_eqb_eq in Ek. subst k'. subst bs1. rewrite Hsame1.
        apply key_inv_intro with (T := T ++ [with_attempt st a (nextRetryAt b) b])
          (F := []) (R := []) (A := A).
        -- split; [rewrite <- app_assoc; reflexivity|]. split; [exact Hterm1|].
           split; [left; split; reflexivity|]. split; [constructor|exact HA].
        -- exact HqT.
        -- apply Hrids. exact HrT.
        -- rewrite <- Hrec, HV. apply flat_map_records_map. records_eq.
      * subst bs1. rewrite Hother1 by exact Ek. rewrite app_nil_r. apply (Hkeys k').
    + simpl. exact Hbat1.
    + simpl. exact Hsmall1.
Qed.

Lemma worker_attempt_inv cfg b o s :
  inv cfg s -> In b (batches s) -> state b = Flushing -> inv cfg (worker_attempt cfg b o s).
Proof.
  intros Hinv Hin Hst.
  assert (Ha : attempts b = 0 \/ (attempts b < maxAttempts cfg)%nat).
  { destruct Hinv as [[_ _ Hbat] _]. destruct (Hbat b Hin) as [_ H].
    unfold attempts_ok in H. rewrite Hst in H. exact H. }
  unfold worker_attempt. destruct o.
  - apply complete_inv; auto. lia.
  - destruct (S (attempts b) <? maxAttempts cfg)%nat eqn:E.
    + apply retry_inv; auto. apply Nat.ltb_lt, E.
    + apply complete_inv; auto. lia.
  - apply complete_inv; auto. lia.
Qed.

Lemma init_inv cfg : inv cfg init_sys.
Proof.
  split; [split|]; simpl; try (intros; contradiction); [reflexivity|].
  intros k. apply key_inv_intro with (T := []) (F := []) (R := []) (A := []); try reflexivity.
  split; [reflexivity|]. split; [constructor|]. split; [left; split; reflexivity|].
  split; [constructor|left; reflexivity].
Qed.

Lemma step_inv cfg s s' : inv cfg s -> step cfg s s' -> inv cfg s'.
Proof.
  intros Hinv Hs. destruct Hs as [c s s' He|dt s|e s|b o s Hin Hst _].
  - eapply enqueue_inv; eauto.
  - apply tick_inv, Hinv.
  - apply forceFlush_inv, Hinv.
  - apply worker_attempt_inv; auto.
Qed.

Lemma reachable_inv cfg s : reachable cfg s -> inv cfg s.
Proof.
  induction 1 as [|s s' _ IH Hs]; [apply init_inv|]. eapply step_inv; eauto.
Qed.

(** ** Facts kept by every transition but [enqueue] *)

Section Stable.
Variable P : list batch -> Prop.
Hypothesis P_update : forall i f bs, plain_update f -> P bs -> P (update_batch i f bs).

Lemma schedule_all_stable l s : P (batches s) -> P (batches (schedule_all l s)).
Proof.
  revert s; induction l as [|b l IH]; intros s H; simpl; [exact H|].
  apply IH. destruct (schedule_batches b s) as [g [Hg ->]]. apply P_update; assumption.
Qed.

Lemma tick_stable dt s : P (batches s) -> P (batches (tick dt s)).
Proof. intros H. unfold tick. apply schedule_all_stable. exact H. Qed.

Lemma forceFlush_stable e s : P (batches s) -> P (batches (forceFlushForExecution e s)).
Proof. intros H. unfold forceFlushForExecution. apply schedule_all_stable. exact H. Qed.

Lemma complete_stable b st a s :
  st <> Accumulating -> P (batches s) -> P (batches (complete b st a s)).
Proof.
  intros Hst H. unfold complete, dispatch_next. cbv zeta.
  destruct (take_first _ _) as [[i q']|]; simpl;
    repeat apply P_update;
    first [exact H | apply plain_with_attempt; first [exact Hst | discriminate]].
Qed.

Lemma worker_stable cfg b o s : P (batches s) -> P (batches (worker_attempt cfg b o s)).
Proof.
  intros H. unfold worker_attempt.
  destruct o; [| destruct (_ <? _)%nat |];
    try (apply complete_stable; [discriminate|exact H]).
  simpl. apply P_update; [apply plain_with_attempt; discriminate|exact H].
Qed.

Lemma drain_stable cfg oracle n s : P (batches s) -> P (batches (drain cfg oracle n s)).
Proof.
  revert s; induction n as [|n IH]; intros s H; simpl; [exact H|].
  unfold drain_step. destruct (find _ _) as [b|]; [|exact H].
  apply IH, worker_stable, tick_stable, H.
Qed.

End Stable.

Lemma progressed_update j rs i f bs :
  plain_update f -> progressed j rs bs -> progressed j rs (update_batch i f bs).
Proof.
  intros Hf [b [Hin [Hid [Hr Hst]]]]. destruct (Hf b) as (H1 & _ & _ & H4 & H5).
  destruct (Nat.eq_dec (bid b) i) as [E|E].
  - exists (f b). split; [|split; [congruence|split; [congruence|exact H5]]].
    unfold update_batch. apply in_map_iff. exists b. rewrite E, Nat.eqb_refl. auto.
  - exists b. split; [apply in_update_batch_keep; auto|auto].
Qed.

Lemma policy_ok_update cfg i f bs :
  (forall x, destinationKey (f x) = destinationKey x /\ bpolicy (f x) = bpolicy x) ->
  policy_ok cfg bs -> policy_ok cfg (update_batch i f bs).
Proof.
  intros Hf Hp x Hx. apply in_update_batch in Hx as [[Hx _]|[b [Hb [_ ->]]]]; [apply Hp, Hx|].
  destruct (Hf b) as [Hk Hpol]. rewrite Hk, Hpol. apply Hp, Hb.
Qed.

Lemma policy_ok_plain cfg i f bs :
  plain_update f -> policy_ok cfg bs -> policy_ok cfg (update_batch i f bs).
Proof.
  intros Hf. apply policy_ok_update. intros x. destruct (Hf x) as (_ & Hk & Hp & _). auto.
Qed.

Lemma schedule_policy cfg b s :
  policy_ok cfg (batches s) -> policy_ok cfg (batches (schedule b s)).
Proof.
  intros H. destruct (schedule_batches b s) as [g [Hg ->]]. apply policy_ok_plain; assumption.
Qed.

Lemma enqueue_policy cfg c s s' :
  policy_ok cfg (batches s) -> enqueue cfg c s = inr s' -> policy_ok cfg (batches s').
Proof.
  intros Hp He. unfold enqueue in He.
  destruct (validate c) as [t|]; [|discriminate].
  destruct (_ <=? _)%nat; [discriminate|]. injection He as <-.
  unfold append. cbv zeta. simpl batches at 1.
  destruct (open_batch _ _) as [b|].
  - assert (Hp1 : policy_ok cfg (update_batch (bid b) (add_record
              {| rid := nextRid s; executionId := cExecutionId c; destinationType := t;
                 destinationConfig := cConfig c; payload_of := cPayload c;
                 enqueuedAt := now s |}) (batches s))).
    { apply policy_ok_update; [intros x; split; reflexivity|exact Hp]. }
    destruct (ready_now _ _); [apply schedule_policy|]; exact Hp1.
  - assert (Hp1 : policy_ok cfg (batches s ++ [{| bid := List.length (batches s);
              destinationKey := dest_key t (cConfig c);
              bpolicy := apply_overrides (default_policy cfg t) (cOverrides c);
              records := [{| rid := nextRid s; executionId := cExecutionId c;
                             destinationType := t; destinationConfig := cConfig c;
                             payload_of := cPayload c; enqueuedAt := now s |}];
              state := Accumulating; createdAt := now s; attempts := 0;
              nextRetryAt := now s |}])).
    { intros x Hx. apply in_app_iff in Hx as [Hx|[<-|[]]]; [apply Hp, Hx|reflexivity]. }
    destruct (ready_now _ _); [apply schedule_policy|]; exact Hp1.
Qed.

Lemma reachable_policy cfg s : reachable cfg s -> policy_ok cfg (batches s).
Proof.
  induction 1 as [|s s' _ IH Hs]; [intros b []|].
  destruct Hs as [c s s' He|dt s|e s|b o s _ _ _].
  - eapply enqueue_policy; eauto.
  - apply (tick_stable (policy_ok cfg)); [intros; apply policy_ok_plain; assumption|exact IH].
  - apply (forceFlush_stable (policy_ok cfg)); [intros; apply policy_ok_plain; assumption|exact IH].
  - apply (worker_stable (policy_ok cfg)); [intros; apply policy_ok_plain; assumption|exact IH].
Qed.

(** ** Termination of the worker's run *)

Lemma work_sum_update_le cfg i f bs :
  (forall x, In x bs -> bid x = i -> work_left cfg (f x) <= work_left cfg x) ->
  work_sum cfg (update_batch i f bs) <= work_sum cfg bs.
Proof.
  induction bs as [|x bs IH]; intros H; [reflexivity|].
  assert (IH' := IH (fun y Hy => H y (or_intror Hy))).
  unfold work_sum, update_batch in *. simpl.
  destruct (Nat.eqb_spec (bid x) i) as [E|E];
    [pose proof (H x (or_introl eq_refl) E)|]; lia.
Qed.

Lemma work_sum_update_lt cfg i f bs b :
  (forall x, In x bs -> bid x = i -> work_left cfg (f x) <= work_left cfg x) ->
  In b bs -> bid b = i -> work_left cfg (f b) < work_left cfg b ->
  work_sum cfg (update_batch i f bs) < work_sum cfg bs.
Proof.
  induction bs as [|x bs IH]; intros H Hin Hid Hlt; [contradiction|].
  pose proof (work_sum_update_le cfg i f bs (fun y Hy => H y (or_intror Hy))) as Hle.
  unfold work_sum, update_batch in *. simpl.
  destruct Hin as [<-|Hin].
  - rewrite Hid, Nat.eqb_refl. lia.
  - pose proof (IH (fun y Hy => H y (or_intror Hy)) Hin Hid Hlt).
    destruct (Nat.eqb_spec (bid x) i) as [E|E];
      [pose proof (H x (or_introl eq_refl) E)|]; lia.
Qed.

Lemma work_sum_in cfg bs b : In b bs -> work_left cfg b <= work_sum cfg bs.
Proof.
  induction bs as [|x bs IH]; intros Hin; [contradiction|]. unfold work_sum in *. simpl.
  destruct Hin as [<-|Hin]; [lia|]. specialize (IH Hin). lia.
Qed.

Lemma inv_nodup cfg s : inv cfg s -> NoDup (map bid (batches s)).
Proof. intros [[Hids _ _] _]. apply ids_nodup, Hids. Qed.

Lemma inv_same cfg s x y :
  inv cfg s -> In x (batches s) -> In y (batches s) -> bid x = bid y -> x = y.
Proof. intros Hinv. apply NoDup_map_inj, (inv_nodup cfg s Hinv). Qed.

Lemma flushing_attempts cfg s b :
  inv cfg s -> In b (batches s) -> state b = Flushing ->
  attempts b = 0 \/ (attempts b < maxAttempts cfg)%nat.
Proof.
  intros [[_ _ Hbat] _] Hin Hst. destruct (Hbat b Hin) as [_ H].
  unfold attempts_ok in H. rewrite Hst in H. exact H.
Qed.

Lemma schedule_measure cfg s b :
  inv cfg s -> In b (batches s) -> state b = Accumulating ->
  measure cfg (schedule b s) <= measure cfg s.
Proof.
  intros Hinv Hin Hst. unfold measure, schedule.
  destruct (key_flushing _ _); simpl; apply work_sum_update_le; intros x Hx Hid;
    assert (x = b) by (eapply inv_same; eauto); subst x;
    unfold work_left; simpl; rewrite Hst; lia.
Qed.

Lemma schedule_all_measure cfg (l : list batch) s :
  inv cfg s ->
  (forall b, In b l -> In b (batches s) /\ state b = Accumulating) ->
  NoDup (map bid l) ->
  measure cfg (schedule_all l s) <= measure cfg s.
Proof.
  revert s; induction l as [|b l IH]; intros s Hinv Hl Hnd; simpl; [lia|].
  inversion Hnd as [|? ? Hb Hnd']; subst.
  destruct (Hl b (or_introl eq_refl)) as [Hin Hst].
  assert (Hinv' : inv cfg (schedule b s)).
  { destruct Hinv as [Hc Hsmall]. apply schedule_inv; auto. }
  assert (Hl' : forall b', In b' l -> In b' (batches (schedule b s)) /\ state b' = Accumulating).
  { intros b' Hb'. destruct (Hl b' (or_intror Hb')) as [Hin' Hst'].
    destruct (schedule_batches b s) as [g [_ ->]]. split; [|exact Hst'].
    apply in_update_batch_keep; [exact Hin'|].
    intros E. apply Hb. rewrite <- E. apply in_map; exact Hb'. }
  pose proof (IH _ Hinv' Hl' Hnd'). pose proof (schedule_measure cfg s b Hinv Hin Hst). lia.
Qed.

Lemma tick_measure cfg dt s : inv cfg s -> measure cfg (tick dt s) <= measure cfg s.
Proof.
  intros Hinv. unfold tick.
  set (s1 := {| now := now s + dt; nextRid := nextRid s; batches := batches s;
                readyQueue := readyQueue s; reports := reports s; accepted := accepted s |}).
  assert (Hinv1 : inv cfg s1) by (apply (inv_same_fields cfg s); auto).
  change (measure cfg s) with (measure cfg s1).
  apply schedule_all_measure; [exact Hinv1| |eapply filter_open_nodup; exact Hinv1].
  intros b Hb. apply filter_In in Hb as [Hin Hp]. apply andb_true_iff in Hp as [Ho _].
  split; [exact Hin|]. apply batch_state_eqb_eq, Ho.
Qed.

Lemma schedule_all_keep (l : list batch) s x :
  In x (batches s) -> ~ In (bid x) (map bid l) -> In x (batches (schedule_all l s)).
Proof.
  revert s; induction l as [|b l IH]; intros s Hin Hn; simpl; [exact Hin|].
  apply IH; [|intros H; apply Hn; right; exact H].
  destruct (schedule_batches b s) as [g [_ ->]].
  apply in_update_batch_keep; [exact Hin|]. intros E; apply Hn; left; congruence.
Qed.

Lemma schedule_all_now (l : list batch) s : now (schedule_all l s) = now s.
Proof.
  revert s; induction l as [|b l IH]; intros s; simpl; [reflexivity|].
  rewrite IH. unfold schedule. destruct (key_flushing _ _); reflexivity.
Qed.

Lemma tick_keeps cfg dt s b :
  inv cfg s -> In b (batches s) -> state b <> Accumulating -> In b (batches (tick dt s)).
Proof.
  intros Hinv Hin Hst. unfold tick. apply schedule_all_keep; [exact Hin|].
  intros Hb. apply in_map_iff in Hb as [y [Hy Hyin]].
  apply filter_In in Hyin as [Hyin Hp]. apply andb_true_iff in Hp as [Ho _].
  assert (y = b) by (eapply inv_same; eauto). subst y.
  apply Hst, batch_state_eqb_eq, Ho.
Qed.

Lemma queue_ready cfg s k i :
  inv cfg s -> In i (queue_ids k s) -> exists r, In r (batches s) /\ bid r = i /\ state r = Ready.
Proof.
  intros [[_ Hkeys _] _] Hi. destruct (Hkeys k) as [_ [Hq _]]. rewrite Hq in Hi.
  apply in_map_iff in Hi as [r [Hr Hin]]. apply filter_In in Hin as [Hin Hready].
  exists r. split; [eapply in_batches_of_key_in; exact Hin|].
  split; [exact Hr|]. apply batch_state_eqb_eq, Hready.
Qed.

Lemma complete_measure cfg s b st a :
  inv cfg s -> In b (batches s) -> state b = Flushing -> is_terminal st = true ->
  measure cfg (complete b st a s) < measure cfg s.
Proof.
  intros Hinv Hin Hst Hterm.
  pose proof (flushing_attempts cfg s b Hinv Hin Hst) as Ha.
  assert (Hlt : work_sum cfg (update_batch (bid b) (with_attempt st a (nextRetryAt b)) (batches s))
                < work_sum cfg (batches s)).
  { apply work_sum_update_lt with (b := b); auto.
    - intros x Hx Hid. assert (x = b) by (eapply inv_same; eauto). subst x.
      unfold work_left. simpl. destruct st; try discriminate; lia.
    - unfold work_left. simpl. rewrite Hst. destruct st; try discriminate; lia. }
  unfold complete, dispatch_next. cbv zeta. cbn [readyQueue].
  destruct (take_first _ _) as [[i q']|] eqn:Et; unfold measure; simpl; [|exact Hlt].
  eapply Nat.le_lt_trans; [|exact Hlt]. apply work_sum_update_le.
  assert (Hi : In i (queue_ids (destinationKey b) s)).
  { unfold queue_ids. rewrite (take_first_some _ _ _ _ Et), key_eqb_refl. left; reflexivity. }
  destruct (queue_ready cfg s _ _ Hinv Hi) as [r [Hr [Hri Hrst]]].
  intros x Hx Hid.
  apply in_update_batch in Hx as [[Hx Hne]|[b0 [Hb0 [Hid0 ->]]]].
  - assert (x = r) by (eapply inv_same; eauto; congruence). subst x.
    unfold work_left. simpl. rewrite Hrst. lia.
  - exfalso. assert (b0 = b) by (eapply inv_same; eauto). subst b0.
    assert (r = b) by (eapply inv_same; eauto; simpl in Hid; congruence). subst r.
    congruence.
Qed.

Lemma worker_measure cfg s b o :
  inv cfg s -> In b (batches s) -> state b = Flushing ->
  measure cfg (worker_attempt cfg b o s) < measure cfg s.
Proof.
  intros Hinv Hin Hst.
  pose proof (flushing_attempts cfg s b Hinv Hin Hst) as Ha.
  unfold worker_attempt.
  destruct o; [| destruct (S (attempts b) <? maxAttempts cfg)%nat eqn:E |];
    try (apply complete_measure; auto; reflexivity).
  apply Nat.ltb_lt in E. unfold measure. simpl.
  apply work_sum_update_lt with (b := b); auto.
  - intros x Hx Hid. assert (x = b) by (eapply inv_same; eauto). subst x.
    unfold work_left. simpl. rewrite Hst. lia.
  - unfold work_left. simpl. rewrite Hst. lia.
Qed.

Lemma flushing_work cfg s b :
  inv cfg s -> In b (batches s) -> state b = Flushing -> 1 <= measure cfg s.
Proof.
  intros Hinv Hin Hst. pose proof (flushing_attempts cfg s b Hinv Hin Hst).
  pose proof (work_sum_in cfg _ _ Hin). unfold measure, work_left in *. rewrite Hst in *. lia.
Qed.

Lemma drain_step_some cfg oracle s s' :
  reachable cfg s -> drain_step cfg oracle s = Some s' ->
  reachable cfg s' /\ measure cfg s' < measure cfg s.
Proof.
  intros Hr Hd. unfold drain_step in Hd.
  destruct (find _ _) as [b|] eqn:Ef; [|discriminate]. injection Hd as <-.
  apply find_some in Ef as [Hin Hst]. apply batch_state_eqb_eq in Hst.
  pose proof (reachable_inv _ _ Hr) as Hinv.
  assert (Hr1 : reachable cfg (tick (nextRetryAt b - now s) s))
    by (eapply reach_step; [exact Hr|apply StepTick]).
  assert (Hin1 : In b (batches (tick (nextRetryAt b - now s) s)))
    by (apply (tick_keeps cfg); auto; rewrite Hst; discriminate).
  assert (Hnow : nextRetryAt b <= now (tick (nextRetryAt b - now s) s))
    by (unfold tick; rewrite schedule_all_now; simpl; lia).
  split.
  - eapply reach_step; [exact Hr1|]. apply StepAttempt; auto.
  - pose proof (tick_measure cfg (nextRetryAt b - now s) s Hinv).
    pose proof (worker_measure cfg _ b (oracle (tick (nextRetryAt b - now s) s) b)
                  (reachable_inv _ _ Hr1) Hin1 Hst).
    lia.
Qed.

Lemma drain_spec cfg oracle n s :
  reachable cfg s -> measure cfg s <= n ->
  reachable cfg (drain cfg oracle n s) /\
  forall b, In b (batches (drain cfg oracle n s)) -> state b <> Flushing.
Proof.
  revert s; induction n as [|n IH]; intros s Hr Hm; simpl.
  - split; [exact Hr|]. intros b Hin Hst.
    pose proof (flushing_work cfg s b (reachable_inv _ _ Hr) Hin Hst). lia.
  - destruct (drain_step cfg oracle s) as [s'|] eqn:Hd.
    + destruct (drain_step_some cfg oracle s s' Hr Hd) as [Hr' Hlt].
      apply IH; [exact Hr'|lia].
    + split; [exact Hr|]. intros b Hin Hst. unfold drain_step in Hd.
      destruct (find _ _) eqn:Ef; [discriminate|].
      pose proof (find_none _ _ Ef b Hin) as H. simpl in H. rewrite Hst in H. discriminate.
Qed.

(** ** Observations of a state satisfying the invariant *)

Lemma ready_has_flushing cfg s b :
  inv cfg s -> In b (batches s) -> state b = Ready ->
  exists f, In f (batches s) /\ destinationKey f = destinationKey b /\ state f = Flushing.
Proof.
  intros [[_ Hkeys _] _] Hin Hst.
  destruct (Hkeys (destinationKey b)) as [[T [F [R [A Hsh]]]] _].
  assert (HinV : In b (batches_of_key (destinationKey b) (batches s)))
    by (apply in_batches_of_key; auto).
  destruct (shape_in _ _ _ _ _ _ Hsh HinV) as [[_ H]|[[_ H]|[[HR _]|[_ H]]]];
    try (rewrite Hst in H; discriminate).
  pose proof Hsh as (HV & _ & HF & _ & _).
  destruct HF as [[_ ->]|[f [-> Hf]]]; [contradiction|].
  assert (HfV : In f (batches_of_key (destinationKey b) (batches s)))
    by (rewrite HV; apply in_or_app; right; left; reflexivity).
  apply in_batches_of_key in HfV as [HfV Hk]. exists f. auto.
Qed.

Lemma filter_of_key k (P : batch -> bool) (bs : list batch) :
  filter (fun b => of_key k b && P b) bs = filter P (batches_of_key k bs).
Proof.
  induction bs as [|b bs IH]; simpl; [reflexivity|].
  destruct (of_key k b); simpl; [destruct (P b); [f_equal|]|]; exact IH.
Qed.

Lemma shape_flushing_count V T F R A :
  shape_parts V T F R A ->
  List.length (filter (fun b => batch_state_eqb (state b) Flushing) V) <= 1.
Proof.
  intros (-> & HT & HF & HR & HA). rewrite !filter_app, !length_app.
  rewrite (Forall_filter_nil _ _ T HT)
    by (intros x Hx; destruct (state x); simpl in *; congruence).
  rewrite (Forall_filter_nil _ _ R HR) by (intros x Hx; rewrite Hx; reflexivity).
  assert (HA0 : filter (fun b => batch_state_eqb (state b) Flushing) A = []).
  { destruct HA as [->|[a [-> Ha]]]; simpl; [reflexivity|]. rewrite Ha. reflexivity. }
  rewrite HA0. destruct HF as [[-> _]|[f [-> _]]]; simpl; [lia|].
  destruct (batch_state_eqb _ _); simpl; lia.
Qed.

Lemma lookup_batch_in s x :
  NoDup (map bid (batches s)) -> In x (batches s) -> lookup_batch (bid x) s = Some x.
Proof.
  unfold lookup_batch. induction (batches s) as [|y bs IH]; intros Hnd Hin; [contradiction|].
  inversion Hnd as [|? ? Hy Hnd']; subst. simpl.
  destruct Hin as [<-|Hin]; [rewrite Nat.eqb_refl; reflexivity|].
  destruct (Nat.eqb_spec (bid y) (bid x)) as [E|E]; [|apply IH; assumption].
  exfalso. apply Hy. rewrite E. apply in_map, Hin.
Qed.

Lemma batches_of_ids_map s (l : list batch) :
  NoDup (map bid (batches s)) -> (forall x, In x l -> In x (batches s)) ->
  batches_of_ids s (map bid l) = l.
Proof.
  intros Hnd. induction l as [|x l IH]; intros Hl; [reflexivity|].
  unfold batches_of_ids in *. simpl. rewrite lookup_batch_in by auto with datatypes.
  simpl. f_equal. apply IH. intros y Hy. apply Hl. right. exact Hy.
Qed.

Lemma dispatch_order cfg s k :
  inv cfg s ->
  batches_of_ids s (report_ids k s) ++ pending_batches k s = batches_of_key k (batches s).
Proof.
  intros Hinv. pose proof (inv_nodup cfg s Hinv) as Hnd.
  destruct Hinv as [[_ Hkeys _] _].
  destruct (Hkeys k) as [[T [F [R [A Hsh]]]] [_ [Hr _]]].
  rewrite Hr, (shape_filter_terminal _ _ _ _ _ Hsh).
  pose proof Hsh as (HV & HT & HF & HR & HA).
  rewrite batches_of_ids_map; [|exact Hnd|].
  2: { intros x Hx. eapply in_batches_of_key_in. rewrite HV. apply in_or_app. left. exact Hx. }
  unfold pending_batches. rewrite HV, !filter_app.
  rewrite (Forall_filter_nil _ _ T HT) by (intros x Hx; rewrite Hx; reflexivity).
  rewrite (Forall_filter_all _ _ R HR) by (intros x Hx; rewrite Hx; reflexivity).
  assert (HF' : filter (fun b => negb (is_terminal (state b))) F = F).
  { destruct HF as [[-> _]|[f [-> Hf]]]; simpl; [reflexivity|]. rewrite Hf. reflexivity. }
  assert (HA' : filter (fun b => negb (is_terminal (state b))) A = A).
  { destruct HA as [->|[a [-> Ha]]]; simpl; [reflexivity|]. rewrite Ha. reflexivity. }
  rewrite HF', HA'. reflexivity.
Qed.

Lemma key_records cfg s k :
  inv cfg s -> flat_map records (batches_of_key k (batches s)) = accepted_for k s.
Proof. intros [[_ Hkeys _] _]. destruct (Hkeys k) as [_ [_ [_ H]]]. exact H. Qed.

Lemma singletons (l : list batch) :
  Forall (fun b => List.length (records b) = 1) l ->
  map records l = map (fun r => [r]) (flat_map records l).
Proof.
  induction 1 as [|b l Hb Hl IH]; [reflexivity|]. simpl.
  destruct (records b) as [|r [|r' rs]]; simpl in Hb; try discriminate.
  simpl. f_equal. exact IH.
Qed.

Lemma schedule_marks b s :
  In b (batches s) ->
  exists b', In b' (batches (schedule b s)) /\ bid b' = bid b /\ records b' = records b
             /\ (state b' = Ready \/ state b' = Flushing).
Proof.
  intros Hin. unfold schedule. destruct (key_flushing _ _); simpl;
    [exists (with_state Ready b)|exists (with_attempt Flushing 0 (now s) b)];
    (split; [|simpl; auto]);
    unfold update_batch; apply in_map_iff; exists b; rewrite Nat.eqb_refl; auto.
Qed.

Lemma schedule_all_marks (l : list batch) s :
  (forall b, In b l -> In b (batches s) /\ state b = Accumulating) ->
  NoDup (map bid l) ->
  forall b, In b l ->
  exists b', In b' (batches (schedule_all l s)) /\ bid b' = bid b /\ records b' = records b
             /\ (state b' = Ready \/ state b' = Flushing).
Proof.
  revert s; induction l as [|b l IH]; intros s Hl Hnd x Hx; [contradiction|].
  inversion Hnd as [|? ? Hb Hnd']; subst. simpl.
  assert (Hl' : forall b', In b' l -> In b' (batches (schedule b s)) /\ state b' = Accumulating).
  { intros b' Hb'. destruct (Hl b' (or_intror Hb')) as [Hin' Hst'].
    destruct (schedule_batches b s) as [g [_ ->]]. split; [|exact Hst'].
    apply in_update_batch_keep; [exact Hin'|].
    intros E. apply Hb. rewrite <- E. apply in_map; exact Hb'. }
  destruct Hx as [<-|Hx]; [|apply IH; assumption].
  destruct (schedule_marks b s (proj1 (Hl b (or_introl eq_refl)))) as [b' [Hin' Hb']].
  exists b'. split; [|exact Hb'].
  apply schedule_all_keep; [exact Hin'|]. destruct Hb' as [-> _]. exact Hb.
Qed.

Lemma progressed_final cfg s i rs :
  inv cfg s -> progressed i rs (batches s) ->
  (forall b, In b (batches s) -> state b <> Flushing) ->
  exists b, In b (batches s) /\ bid b = i /\ records b = rs /\ is_terminal (state b) = true.
Proof.
  intros Hinv [b [Hin [Hid [Hr Hst]]]] Hnf. exists b. repeat (split; [assumption|]).
  destruct (state b) eqn:E; try reflexivity.
  - contradiction.
  - destruct (ready_has_flushing cfg s b Hinv Hin E) as [f [Hf [_ Hff]]].
    exfalso. exact (Hnf f Hf Hff).
  - exfalso. exact (Hnf b Hin E).
Qed.

Lemma flat_map_delivered (l : list batch) :
  Forall (fun b => state b = Delivered) l ->
  flat_map (fun b => if batch_state_eqb (state b) Delivered then records b else []) l
  = flat_map records l.
Proof. induction 1 as [|x l Hx _ IH]; simpl; [reflexivity|]. rewrite Hx, IH. reflexivity. Qed.

Lemma complete_reports b st a s :
  reports (complete b st a s)
  = reports s ++ [{| rBatchId := bid b; rKey := destinationKey b; rOutcome := st; rAttempts := a |}].
Proof. unfold complete, dispatch_next. cbv zeta. destruct (take_first _ _) as [[]|]; reflexivity. Qed.

(** ** A terminal Batch stays as it is *)

Lemma queue_head_ready cfg s k i q' :
  inv cfg s -> take_first k (readyQueue s) = Some (i, q') ->
  exists r, In r (batches s) /\ bid r = i /\ state r = Ready.
Proof.
  intros Hinv Ht. apply (queue_ready cfg s k); [exact Hinv|].
  unfold queue_ids. rewrite (take_first_some _ _ _ _ Ht k), key_eqb_refl.
  simpl. left. reflexivity.
Qed.

Lemma dispatch_next_keep k s x :
  In x (batches s) -> (forall i q', take_first k (readyQueue s) = Some (i, q') -> bid x <> i) ->
  In x (batches (dispatch_next k s)).
Proof.
  intros Hx Hn. unfold dispatch_next.
  destruct (take_first k (readyQueue s)) as [[i q']|] eqn:Ht; [|exact Hx].
  simpl. apply in_update_batch_keep; [exact Hx|]. exact (Hn i q' eq_refl).
Qed.

Lemma complete_keep cfg s b st a x :
  inv cfg s -> In b (batches s) -> state b = Flushing ->
  In x (batches s) -> state x <> Ready -> state x <> Flushing ->
  In x (batches (complete b st a s)).
Proof.
  intros Hinv Hin Hst Hx Hr Hf. unfold complete. apply dispatch_next_keep.
  - cbn [batches]. apply in_update_batch_keep; [exact Hx|].
    intros E. apply Hf. rewrite (inv_same cfg s x b Hinv Hx Hin E). exact Hst.
  - intros i q' Ht. cbn [readyQueue] in Ht.
    destruct (queue_head_ready cfg s _ i q' Hinv Ht) as [r [Hr' [<- Hrs]]].
    intros E. apply Hr. rewrite (inv_same cfg s x r Hinv Hx Hr' E). exact Hrs.
Qed.

Lemma complete_new cfg s b st a :
  inv cfg s -> In b (batches s) -> state b = Flushing ->
  In (with_attempt st a (nextRetryAt b) b) (batches (complete b st a s)).
Proof.
  intros Hinv Hin Hst. unfold complete. apply dispatch_next_keep.
  - cbn [batches]. unfold update_batch. apply in_map_iff. exists b.
    rewrite Nat.eqb_refl. split; [reflexivity|exact Hin].
  - intros i q' Ht. cbn [readyQueue] in Ht.
    destruct (queue_head_ready cfg s _ i q' Hinv Ht) as [r [Hr' [<- Hrs]]].
    simpl. intros E. rewrite (inv_same cfg s b r Hinv Hin Hr' E) in Hst. congruence.
Qed.

Lemma append_keep k p r s x :
  (forall y, In y (batches s) -> bid y = bid x -> y = x) -> bid x < List.length (batches s) ->
  In x (batches s) -> state x <> Accumulating -> In x (batches (append k p r s)).
Proof.
  intros Huniq Hlt Hx Hacc. unfold append. cbv zeta.
  destruct (open_batch k (batches s)) as [b|] eqn:Eo.
  - apply open_batch_some in Eo as [Hb Hbst]. apply in_batches_of_key_in in Hb.
    assert (Hne : bid x <> bid b).
    { intros E. apply Hacc. rewrite <- (Huniq b Hb (eq_sym E)). exact Hbst. }
    assert (H1 : In x (batches (set_batches s (update_batch (bid b) (add_record r) (batches s)))))
      by (simpl; apply in_update_batch_keep; assumption).
    destruct (ready_now _ _); [|exact H1].
    destruct (schedule_batches (add_record r b)
                (set_batches s (update_batch (bid b) (add_record r) (batches s)))) as [g [_ ->]].
    apply in_update_batch_keep; [exact H1|]. simpl. exact Hne.
  - match goal with |- context [set_batches s (batches s ++ [?nb])] =>
      assert (H1 : In x (batches (set_batches s (batches s ++ [nb]))))
        by (simpl; apply in_or_app; left; exact Hx);
      destruct (ready_now (now s) nb); [|exact H1];
      destruct (schedule_batches nb (set_batches s (batches s ++ [nb]))) as [g [_ ->]]
    end.
    apply in_update_batch_keep; [exact H1|]. simpl. lia.
Qed.

Lemma enqueue_keep cfg c s s' x :
  inv cfg s -> enqueue cfg c s = inr s' -> In x (batches s) -> state x <> Accumulating ->
  In x (batches s').
Proof.
  intros Hinv He Hx Hacc. unfold enqueue in He.
  destruct (validate c) as [t|]; [|discriminate].
  destruct (_ <=? _)%nat; [discriminate|]. injection He as <-.
  apply append_keep; cbn [batches]; [| |exact Hx|exact Hacc].
  - intros y Hy E. exact (inv_same cfg s y x Hinv Hy Hx E).
  - destruct Hinv as [[Hids _ _] _].
    assert (Hb : In (bid x) (map bid (batches s))) by (apply in_map; exact Hx).
    rewrite Hids in Hb. apply in_seq in Hb. lia.
Qed.

Lemma forceFlush_keeps cfg e s b :
  inv cfg s -> In b (batches s) -> state b <> Accumulating ->
  In b (batches (forceFlushForExecution e s)).
Proof.
  intros Hinv Hin Hst. unfold forceFlushForExecution. apply schedule_all_keep; [exact Hin|].
  intros Hb. apply in_map_iff in Hb as [y [Hy Hyin]].
  apply filter_In in Hyin as [Hyin Hp]. apply andb_true_iff in Hp as [Ho _].
  assert (y = b) by (eapply inv_same; eauto). subst y.
  apply Hst, batch_state_eqb_eq, Ho.
Qed.

Lemma step_keeps_done cfg s s' x :
  inv cfg s -> step cfg s s' -> In x (batches s) -> is_terminal (state x) = true ->
  In x (batches s').
Proof.
  intros Hinv Hs Hx Ht.
  assert (Hacc : state x <> Accumulating) by (intros E; rewrite E in Ht; discriminate).
  assert (Hr : state x <> Ready) by (intros E; rewrite E in Ht; discriminate).
  assert (Hf : state x <> Flushing) by (intros E; rewrite E in Ht; discriminate).
  destruct Hs as [c s s' He|dt s|e s|b o s Hin Hst _].
  - eapply enqueue_keep; eauto.
  - apply (tick_keeps cfg); auto.
  - apply (forceFlush_keeps cfg); auto.
  - unfold worker_attempt.
    destruct o; [apply (complete_keep cfg); auto| |apply (complete_keep cfg); auto].
    destruct (_ <? _)%nat; [|apply (complete_keep cfg); auto].
    simpl. apply in_update_batch_keep; [exact Hx|].
    intros E. apply Hf. rewrite (inv_same cfg s x b Hinv Hx Hin E). exact Hst.
Qed.

Lemma steps_keep_done cfg s s2 x :
  inv cfg s -> clos_refl_trans_1n sys (step cfg) s s2 ->
  In x (batches s) -> is_terminal (state x) = true -> inv cfg s2 /\ In x (batches s2).
Proof.
  intros Hinv Hrt. revert Hinv.
  induction Hrt as [|s s1 s2 Hs _ IH]; intros Hinv Hx Ht; [split; assumption|].
  apply IH; [eapply step_inv; eauto|eapply step_keeps_done; eauto|exact Ht].
Qed.

(** ** Reachability of the concrete runs *)

Ltac batch_in := unfold batch_at; apply nth_In; vm_compute; lia.

Lemma reach_h1 : reachable cfg0 h1.
Proof.
  apply (reach_step cfg0 init_sys h1 (reach_init cfg0)).
  apply StepEnqueue with (c := http_call 1). vm_compute. reflexivity.
Qed.

Lemma reach_h2 : reachable cfg0 h2.
Proof.
  apply (reach_step cfg0 h1 h2 reach_h1).
  apply StepEnqueue with (c := http_call 2). vm_compute. reflexivity.
Qed.

Lemma reach_h3 : reachable cfg0 h3.
Proof.
  apply (reach_step cfg0 h2 h3 reach_h2).
  apply StepEnqueue with (c := http_call 3). vm_compute. reflexivity.
Qed.

Lemma reach_h1_retry : reachable cfg0 h1_retry.
Proof.
  apply (reach_step cfg0 h1 h1_retry reach_h1). apply StepAttempt.
  - batch_in.
  - vm_compute. reflexivity.
  - apply Nat.leb_le. vm_compute. reflexivity.
Qed.

Lemma reach_h1_later : reachable cfg0 h1_later.
Proof. apply (reach_step cfg0 h1_retry h1_later reach_h1_retry). apply StepTick. Qed.

Lemma reach_o1 : reachable cfg0 o1.
Proof.
  apply (reach_step cfg0 init_sys o1 (reach_init cfg0)).
  apply StepEnqueue with (c := storage_call 7 no_overrides). vm_compute. reflexivity.
Qed.

Lemma reach_z1 : reachable cfg0 z1.
Proof.
  apply (reach_step cfg0 init_sys z1 (reach_init cfg0)).
  apply StepEnqueue with (c := storage_call 7 {| oMaxBatchSize := Some 0; oMaxWaitTimeMs := None |}).
  vm_compute. reflexivity.
Qed.

Lemma reach_p1 : reachable cfg_tight p1.
Proof.
  apply (reach_step cfg_tight init_sys p1 (reach_init cfg_tight)).
  apply StepEnqueue with (c := storage_call 7 no_overrides). vm_compute. reflexivity.
Qed.

Lemma reach_m3 : reachable cfg0 m3.
Proof.
  apply (reach_step cfg0 m2 m3); [apply (reach_step cfg0 m1 m2);
    [apply (reach_step cfg0 init_sys m1 (reach_init cfg0))|]|].
  - apply StepEnqueue with (c := storage_call 1 ov2). vm_compute. reflexivity.
  - apply StepEnqueue with (c := storage_call 2 ov2). vm_compute. reflexivity.
  - apply StepEnqueue with (c := storage_call 3 ov2). vm_compute. reflexivity.
Qed.

Lemma reach_m3_done : reachable cfg0 m3_done.
Proof.
  assert (Hr : reachable cfg0 m3_flushed)
    by (apply (reach_step cfg0 m3 m3_flushed reach_m3); apply StepForceFlush).
  exact (proj1 (drain_spec cfg0 (fun _ _ => Success) _ _ Hr (le_n _))).
Qed.

(** ** The claims *)

(** C1: in every reachable state and for every Destination Key, the
    key's Batches in delivery order (first those with a reported terminal
    outcome, in report order, then those still pending, in creation order)
    are exactly its Batches in creation order, and their concatenated
    records are the records accepted for the key, in enqueue order; once
    every Batch of the key is [Delivered], the delivered records in
    delivery order are exactly the enqueued ones. *)
Theorem per_key_delivery_order cfg s k :
  reachable cfg s ->
  batches_of_ids s (report_ids k s) ++ pending_batches k s = batches_of_key k (batches s)
  /\ flat_map records (batches_of_ids s (report_ids k s) ++ pending_batches k s)
     = accepted_for k s
  /\ (Forall (fun b => state b = Delivered) (batches_of_key k (batches s)) ->
      delivered_records k s = accepted_for k s).
Proof.
  intros Hr. pose proof (reachable_inv _ _ Hr) as Hinv.
  pose proof (dispatch_order cfg s k Hinv) as Hord.
  split; [exact Hord|]. split; [rewrite Hord; apply (key_records cfg), Hinv|].
  intros Hdel. unfold delivered_records.
  assert (Hpend : pending_batches k s = []).
  { unfold pending_batches. apply (Forall_filter_nil _ _ _ Hdel).
    intros x Hx. rewrite Hx. reflexivity. }
  rewrite Hpend, app_nil_r in Hord. rewrite Hord, <- (key_records cfg s k Hinv).
  apply flat_map_delivered, Hdel.
Qed.

(** C2 (amended): every Batch holds at least one and at most
    [max 1 maxBatchSize] records ([max 1 1] in immediate mode); so for
    a batched policy with [maxBatchSize = N >= 1] no Batch holds more
    than [N] records. *)
Theorem batch_size_bounded cfg s :
  reachable cfg s -> forall b, In b (batches s) ->
  1 <= List.length (records b) <= Nat.max 1 (size_threshold (bpolicy b))
  /\ (deliveryMode (bpolicy b) = Batched -> 1 <= maxBatchSize (bpolicy b) ->
      List.length (records b) <= maxBatchSize (bpolicy b)).
Proof.
  intros Hr b Hin. destruct (reachable_inv _ _ Hr) as [[_ _ Hbat] _].
  destruct (Hbat b Hin) as [Hsz _]. unfold size_ok in Hsz. split; [exact Hsz|].
  intros Hm HN.
  assert (size_threshold (bpolicy b) = maxBatchSize (bpolicy b))
    by (unfold size_threshold; rewrite Hm; reflexivity).
  lia.
Qed.

(** C3: in every reachable state at most one Batch per Destination Key is
    [Flushing] (so no two Delivery Attempts of one key are in flight), a
    [Ready] Batch only exists while a Batch of its key is [Flushing], and
    the dispatcher's queue holds, for each key, exactly the key's [Ready]
    Batches in creation order (FIFO). *)
Theorem single_flight_per_key cfg s :
  reachable cfg s ->
  (forall k, flushing_count k s <= 1)
  /\ (forall b, In b (batches s) -> state b = Ready ->
        exists f, In f (batches s) /\ destinationKey f = destinationKey b /\ state f = Flushing)
  /\ (forall k, queue_ids k s = map bid (filter is_ready_b (batches_of_key k (batches s)))).
Proof.
  intros Hr. pose proof (reachable_inv _ _ Hr) as Hinv.
  split; [|split].
  - intros k. unfold flushing_count. rewrite filter_of_key.
    destruct Hinv as [[_ Hkeys _] _]. destruct (Hkeys k) as [[T [F [R [A Hsh]]]] _].
    eapply shape_flushing_count; exact Hsh.
  - intros b Hin Hst. eapply ready_has_flushing; eauto.
  - intros k. destruct Hinv as [[_ Hkeys _] _]. destruct (Hkeys k) as [_ [Hq _]]. exact Hq.
Qed.

(** C4 (amended): [send]/[enqueue] fails synchronously with
    [ValidationError] exactly when validation fails (unknown destination
    type, missing required config field or unserializable payload), and
    with [BufferPressureError] exactly when a valid call meets a full
    buffer (the records of open Batches reach the ceiling); it has no
    other error.  A refused call yields no new state. *)
Theorem enqueue_sync_errors cfg c s :
  (enqueue cfg c s = inl ValidationError <-> validate c = None)
  /\ (enqueue cfg c s = inl BufferPressureError <->
      validate c <> None /\ bufferCeiling cfg <= buffered s)
  /\ (validate c = None <->
      match dest_type_of_string (cDestinationType c) with
      | None => True
      | Some t => required_fields_ok t (cConfig c) = false \/ serializable (cPayload c) = false
      end).
Proof.
  split; [|split].
  - unfold enqueue. destruct (validate c); [|tauto].
    destruct (bufferCeiling cfg <=? buffered s)%nat; split; discriminate.
  - unfold enqueue. destruct (validate c); [|split; [discriminate|tauto]].
    destruct (bufferCeiling cfg <=? buffered s)%nat eqn:E.
    + apply Nat.leb_le in E. split; [intros _; split; [discriminate|exact E]|reflexivity].
    + apply Nat.leb_gt in E. split; [discriminate|intros [_ H]; lia].
  - unfold validate. destruct (dest_type_of_string _) as [t|]; [|tauto].
    destruct (required_fields_ok t (cConfig c)), (serializable (cPayload c)); simpl;
      split; intros H; try discriminate; try reflexivity;
      try (destruct H as [H|H]; discriminate); auto.
Qed.

(** C5: for a destination type whose policy is [immediate], every Batch
    of one of its keys holds exactly one record, and the key's Batches in
    delivery order are the one-record Batches of its accepted records, in
    call order. *)
Theorem immediate_single_record_batches cfg s t :
  reachable cfg s -> deliveryMode (default_policy cfg t) = Immediate ->
  forall k, fst k = t ->
  Forall (fun b => List.length (records b) = 1) (batches_of_key k (batches s))
  /\ map records (batches_of_ids s (report_ids k s) ++ pending_batches k s)
     = map (fun r => [r]) (accepted_for k s).
Proof.
  intros Hr Hm k Hk. pose proof (reachable_inv _ _ Hr) as Hinv.
  pose proof (reachable_policy _ _ Hr) as Hp.
  assert (H1 : Forall (fun b => List.length (records b) = 1) (batches_of_key k (batches s))).
  { apply Forall_forall. intros b Hb. apply in_batches_of_key in Hb as [Hin Hkb].
    destruct Hinv as [[_ _ Hbat] _]. destruct (Hbat b Hin) as [Hsz _].
    unfold size_ok, size_threshold in Hsz. rewrite (Hp b Hin), Hkb, Hk, Hm in Hsz.
    simpl in Hsz. lia. }
  split; [exact H1|].
  rewrite (dispatch_order cfg s k Hinv), <- (key_records cfg s k Hinv).
  apply singletons, H1.
Qed.

(** C6 (amended): one Delivery Attempt of a flushing Batch [b] with [a]
    earlier attempts: a permanent failure ends [b] [Exhausted-Failed] at
    once, reporting [a + 1] attempts (exactly 1 when it is the first
    attempt); a transient failure reschedules [b] at
    [now + backoffBaseMs * 2^a] while [a + 1 < maxAttempts], and ends it
    [Exhausted-Failed] otherwise; no Batch ever counts more than
    [max 1 maxAttempts] attempts.  Once ended [Exhausted-Failed] (by a
    permanent failure, or by a transient one with no attempt left), the
    Batch stays in every later state, whatever steps follow, with the
    same records, state [Exhausted-Failed] and [a + 1] attempts, and it is
    the only Batch with its id: it is never [Flushing] again, so no
    further Delivery Attempt of it can take place. *)
Theorem worker_retry_policy cfg s b :
  reachable cfg s -> In b (batches s) -> state b = Flushing ->
  reports (worker_attempt cfg b PermanentFailure s)
    = reports s ++ [{| rBatchId := bid b; rKey := destinationKey b;
                       rOutcome := ExhaustedFailed; rAttempts := S (attempts b) |}]
  /\ (S (attempts b) < maxAttempts cfg ->
      batches (worker_attempt cfg b TransientFailure s)
        = update_batch (bid b)
            (with_attempt Flushing (S (attempts b)) (now s + backoffBaseMs cfg * 2 ^ attempts b))
            (batches s)
      /\ reports (worker_attempt cfg b TransientFailure s) = reports s)
  /\ (maxAttempts cfg <= S (attempts b) ->
      reports (worker_attempt cfg b TransientFailure s)
        = reports s ++ [{| rBatchId := bid b; rKey := destinationKey b;
                           rOutcome := ExhaustedFailed; rAttempts := S (attempts b) |}])
  /\ (forall x, In x (batches s) -> attempts x <= Nat.max 1 (maxAttempts cfg))
  /\ (forall o s2,
        o = PermanentFailure \/ (o = TransientFailure /\ maxAttempts cfg <= S (attempts b)) ->
        clos_refl_trans_1n sys (step cfg) (worker_attempt cfg b o s) s2 ->
        In (with_attempt ExhaustedFailed (S (attempts b)) (nextRetryAt b) b) (batches s2)
        /\ forall y, In y (batches s2) -> bid y = bid b ->
             state y = ExhaustedFailed /\ attempts y = S (attempts b) /\ records y = records b).
Proof.
  intros Hr Hin Hst. pose proof (reachable_inv _ _ Hr) as Hinv.
  split; [apply complete_reports|]. split; [|split].
  - intros Hlt. apply Nat.ltb_lt in Hlt. unfold worker_attempt. rewrite Hlt.
    unfold backoff. rewrite Nat.sub_succ, Nat.sub_0_r. split; reflexivity.
  - intros Hge. apply Nat.ltb_ge in Hge. unfold worker_attempt. rewrite Hge.
    apply complete_reports.
  - split.
    + intros x Hx. destruct Hinv as [[_ _ Hbat] _]. destruct (Hbat x Hx) as [_ Ha].
      unfold attempts_ok in Ha. destruct (state x); lia.
    + intros o s2 Ho Hrt.
      pose proof (worker_attempt_inv cfg b o s Hinv Hin Hst) as Hinv1.
      assert (Hw : worker_attempt cfg b o s = complete b ExhaustedFailed (S (attempts b)) s).
      { destruct Ho as [->|[-> Hge]]; [reflexivity|].
        apply Nat.ltb_ge in Hge. unfold worker_attempt. rewrite Hge. reflexivity. }
      rewrite Hw in Hrt, Hinv1.
      destruct (steps_keep_done cfg _ s2 _ Hinv1 Hrt (complete_new cfg s b ExhaustedFailed
                  (S (attempts b)) Hinv Hin Hst) eq_refl) as [Hinv2 Hin2].
      split; [exact Hin2|]. intros y Hy E.
      rewrite (inv_same cfg s2 y _ Hinv2 Hy Hin2 E). split; [|split]; reflexivity.
Qed.

(** C7: [forceFlushForExecution e] makes every open Batch holding a record
    of execution [e] leave the open state, whatever its size and age: it
    is [Ready] (queued behind its key's flushing Batch) or already
    [Flushing], with the same records; and the worker alone, with no
    further enqueue and whatever the outcomes of the attempts, brings it
    to a terminal state ([Delivered] or [Exhausted-Failed]) in a
    reachable state. *)
Theorem forceFlush_reaches_terminal cfg s e b :
  reachable cfg s -> In b (batches s) -> is_open b = true -> has_execution e b = true ->
  (exists b1, In b1 (batches (forceFlushForExecution e s)) /\ bid b1 = bid b
              /\ records b1 = records b /\ (state b1 = Ready \/ state b1 = Flushing))
  /\ forall oracle,
     reachable cfg (drain cfg oracle (measure cfg (forceFlushForExecution e s))
                                    (forceFlushForExecution e s))
     /\ exists b2, In b2 (batches (drain cfg oracle (measure cfg (forceFlushForExecution e s))
                                                   (forceFlushForExecution e s)))
                   /\ bid b2 = bid b /\ records b2 = records b
                   /\ is_terminal (state b2) = true.
Proof.
  intros Hr Hin Ho He. pose proof (reachable_inv _ _ Hr) as Hinv.
  assert (Hr1 : reachable cfg (forceFlushForExecution e s))
    by (eapply reach_step; [exact Hr|apply StepForceFlush]).
  assert (Hm : exists b1, In b1 (batches (forceFlushForExecution e s)) /\ bid b1 = bid b
                          /\ records b1 = records b /\ (state b1 = Ready \/ state b1 = Flushing)).
  { unfold forceFlushForExecution. apply schedule_all_marks.
    - intros x Hx. apply filter_In in Hx as [Hx Hp]. apply andb_true_iff in Hp as [Hp _].
      split; [exact Hx|apply batch_state_eqb_eq, Hp].
    - eapply filter_open_nodup; exact Hinv.
    - apply filter_In. split; [exact Hin|]. rewrite Ho, He. reflexivity. }
  split; [exact Hm|]. intros oracle.
  destruct (drain_spec cfg oracle _ _ Hr1 (le_n _)) as [Hr2 Hnf].
  split; [exact Hr2|].
  apply (progressed_final cfg); [apply reachable_inv, Hr2| |exact Hnf].
  apply (drain_stable (progressed (bid b) (records b))).
  - intros i f bs Hf Hb. apply progressed_update; assumption.
  - destruct Hm as [b1 [H1 [H2 [H3 H4]]]]. exists b1.
    split; [exact H1|]. split; [exact H2|]. split; [exact H3|].
    destruct H4 as [H4|H4]; rewrite H4; discriminate.
Qed.

(** ** Witnesses and counterexamples *)

Lemma per_key_delivery_order_witness :
  reachable cfg0 m3
  /\ map (fun b => List.length (records b)) (batches_of_key storage_key (batches m3)) = [2; 1]
  /\ flat_map records (batches_of_ids m3 (report_ids storage_key m3)
                       ++ pending_batches storage_key m3)
     = accepted_for storage_key m3
  /\ reachable cfg0 m3_done
  /\ report_ids storage_key m3_done = [0; 1]
  /\ batches_of_ids m3_done (report_ids storage_key m3_done) ++ pending_batches storage_key m3_done
     = batches_of_key storage_key (batches m3_done)
  /\ Forall (fun b => state b = Delivered) (batches_of_key storage_key (batches m3_done))
  /\ delivered_records storage_key m3_done = accepted_for storage_key m3_done
  /\ map rid (delivered_records storage_key m3_done) = [0; 1; 2].
Proof.
  assert (Hdel : Forall (fun b => state b = Delivered) (batches_of_key storage_key (batches m3_done)))
    by (vm_compute; repeat constructor).
  split; [exact reach_m3|]. split; [vm_compute; reflexivity|].
  split; [exact (proj1 (proj2 (per_key_delivery_order cfg0 m3 storage_key reach_m3)))|].
  split; [exact reach_m3_done|]. split; [vm_compute; reflexivity|].
  split; [exact (proj1 (per_key_delivery_order cfg0 m3_done storage_key reach_m3_done))|].
  split; [exact Hdel|].
  split; [exact (proj2 (proj2 (per_key_delivery_order cfg0 m3_done storage_key reach_m3_done)) Hdel)|].
  vm_compute. reflexivity.
Defined.

Lemma batch_size_bounded_witness :
  reachable cfg0 m3
  /\ In (batch_at 0 m3) (batches m3) /\ In (batch_at 1 m3) (batches m3)
  /\ deliveryMode (bpolicy (batch_at 0 m3)) = Batched /\ maxBatchSize (bpolicy (batch_at 0 m3)) = 2
  /\ map rid (records (batch_at 0 m3)) = [0; 1] /\ map rid (records (batch_at 1 m3)) = [2]
  /\ List.length (records (batch_at 0 m3)) <= maxBatchSize (bpolicy (batch_at 0 m3))
  /\ 1 <= List.length (records (batch_at 1 m3))
       <= Nat.max 1 (size_threshold (bpolicy (batch_at 1 m3)))
  /\ List.length (records (batch_at 1 m3)) <= maxBatchSize (bpolicy (batch_at 1 m3)).
Proof.
  assert (H0 : In (batch_at 0 m3) (batches m3)) by batch_in.
  assert (H1 : In (batch_at 1 m3) (batches m3)) by batch_in.
  assert (Hm0 : deliveryMode (bpolicy (batch_at 0 m3)) = Batched) by (vm_compute; reflexivity).
  assert (Hm1 : deliveryMode (bpolicy (batch_at 1 m3)) = Batched) by (vm_compute; reflexivity).
  assert (HN0 : 1 <= maxBatchSize (bpolicy (batch_at 0 m3)))
    by (apply Nat.leb_le; vm_compute; reflexivity).
  assert (HN1 : 1 <= maxBatchSize (bpolicy (batch_at 1 m3)))
    by (apply Nat.leb_le; vm_compute; reflexivity).
  split; [exact reach_m3|]. split; [exact H0|]. split; [exact H1|]. split; [exact Hm0|].
  split; [vm_compute; reflexivity|]. split; [vm_compute; reflexivity|].
  split; [vm_compute; reflexivity|].
  split; [exact (proj2 (batch_size_bounded cfg0 m3 reach_m3 (batch_at 0 m3) H0) Hm0 HN0)|].
  split; [exact (proj1 (batch_size_bounded cfg0 m3 reach_m3 (batch_at 1 m3) H1))|].
  exact (proj2 (batch_size_bounded cfg0 m3 reach_m3 (batch_at 1 m3) H1) Hm1 HN1).
Defined.

(** With [maxBatchSize] overridden to 0, the first record of a batched
    destination already makes a Batch of one record. *)
Lemma batch_size_zero_limit :
  reachable cfg0 z1
  /\ exists b, In b (batches z1) /\ deliveryMode (bpolicy b) = Batched
               /\ maxBatchSize (bpolicy b) = 0 /\ List.length (records b) = 1.
Proof.
  split; [exact reach_z1|]. exists (batch_at 0 z1).
  split; [batch_in|]. vm_compute. auto.
Qed.

Lemma single_flight_per_key_witness :
  reachable cfg0 h3 /\ flushing_count http_key h3 <= 1.
Proof.
  split; [exact reach_h3|].
  exact (proj1 (single_flight_per_key cfg0 h3 reach_h3) http_key).
Defined.

(** A valid call refused because the buffer is full. *)
Lemma buffer_pressure_on_valid_call :
  reachable cfg_tight p1
  /\ validate (storage_call 8 no_overrides) = Some ObjectStorage
  /\ enqueue cfg_tight (storage_call 8 no_overrides) p1 = inl BufferPressureError.
Proof. split; [exact reach_p1|]. split; vm_compute; reflexivity. Qed.

Lemma immediate_single_record_batches_witness :
  reachable cfg0 h3 /\ deliveryMode (default_policy cfg0 Http) = Immediate
  /\ fst http_key = Http
  /\ map records (batches_of_ids h3 (report_ids http_key h3) ++ pending_batches http_key h3)
     = map (fun r => [r]) (accepted_for http_key h3).
Proof.
  split; [exact reach_h3|]. split; [reflexivity|]. split; [reflexivity|].
  exact (proj2 (immediate_single_record_batches cfg0 h3 Http reach_h3 eq_refl http_key eq_refl)).
Defined.

Lemma worker_retry_policy_witness :
  reachable cfg0 h1_later /\ In (batch_at 0 h1_later) (batches h1_later)
  /\ state (batch_at 0 h1_later) = Flushing /\ attempts (batch_at 0 h1_later) = 1
  /\ reports (worker_attempt cfg0 (batch_at 0 h1_later) PermanentFailure h1_later)
     = reports h1_later
       ++ [{| rBatchId := bid (batch_at 0 h1_later); rKey := destinationKey (batch_at 0 h1_later);
              rOutcome := ExhaustedFailed; rAttempts := S (attempts (batch_at 0 h1_later)) |}]
  /\ batches (worker_attempt cfg0 (batch_at 0 h1_later) TransientFailure h1_later)
     = update_batch (bid (batch_at 0 h1_later))
         (with_attempt Flushing (S (attempts (batch_at 0 h1_later)))
            (now h1_later + backoffBaseMs cfg0 * 2 ^ attempts (batch_at 0 h1_later)))
         (batches h1_later)
  /\ In (with_attempt ExhaustedFailed (S (attempts (batch_at 0 h1_later)))
          (nextRetryAt (batch_at 0 h1_later)) (batch_at 0 h1_later))
        (batches (tick 5000 h1_failed))
  /\ state (batch_at 0 (tick 5000 h1_failed)) = ExhaustedFailed
  /\ attempts (batch_at 0 (tick 5000 h1_failed)) = 2.
Proof.
  assert (Hin : In (batch_at 0 h1_later) (batches h1_later)) by batch_in.
  assert (Hst : state (batch_at 0 h1_later) = Flushing) by (vm_compute; reflexivity).
  assert (Hlt : S (attempts (batch_at 0 h1_later)) < maxAttempts cfg0)
    by (apply Nat.ltb_lt; vm_compute; reflexivity).
  assert (Hrt : clos_refl_trans_1n sys (step cfg0)
                  (worker_attempt cfg0 (batch_at 0 h1_later) PermanentFailure h1_later)
                  (tick 5000 h1_failed))
    by exact (rt1n_trans _ _ _ _ _ (StepTick cfg0 5000 h1_failed) (rt1n_refl _ _ _)).
  pose proof (worker_retry_policy cfg0 h1_later (batch_at 0 h1_later) reach_h1_later Hin Hst)
    as [Hperm [Hretry [_ [_ Hdone]]]].
  split; [exact reach_h1_later|]. split; [exact Hin|]. split; [exact Hst|].
  split; [vm_compute; reflexivity|]. split; [exact Hperm|].
  split; [exact (proj1 (Hretry Hlt))|].
  split; [exact (proj1 (Hdone PermanentFailure _ (or_introl eq_refl) Hrt))|].
  split; vm_compute; reflexivity.
Defined.

(** A transient failure followed by a permanent one: the Batch ends
    [Exhausted-Failed] after 2 attempts. *)
Lemma permanent_after_transient :
  reachable cfg0 h1_later
  /\ In (batch_at 0 h1_later) (batches h1_later)
  /\ state (batch_at 0 h1_later) = Flushing
  /\ attempts (batch_at 0 h1_later) = 1
  /\ reports h1_failed
     = [{| rBatchId := 0; rKey := http_key; rOutcome := ExhaustedFailed; rAttempts := 2 |}].
Proof.
  split; [exact reach_h1_later|]. split; [batch_in|].
  split; [|split]; vm_compute; reflexivity.
Qed.

Lemma forceFlush_reaches_terminal_witness :
  reachable cfg0 o1 /\ In (batch_at 0 o1) (batches o1) /\ is_open (batch_at 0 o1) = true
  /\ has_execution 7 (batch_at 0 o1) = true
  /\ exists b2, In b2 (batches (drain cfg0 (fun _ _ => Success)
                                     (measure cfg0 (forceFlushForExecution 7 o1))
                                     (forceFlushForExecution 7 o1)))
                /\ bid b2 = bid (batch_at 0 o1) /\ records b2 = records (batch_at 0 o1)
                /\ is_terminal (state b2) = true.
Proof.
  assert (Hin : In (batch_at 0 o1) (batches o1)) by batch_in.
  assert (Ho : is_open (batch_at 0 o1) = true) by (vm_compute; reflexivity).
  assert (He : has_execution 7 (batch_at 0 o1) = true) by (vm_compute; reflexivity).
  split; [exact reach_o1|]. split; [exact Hin|]. split; [exact Ho|]. split; [exact He|].
  exact (proj2 (proj2 (forceFlush_reaches_terminal cfg0 o1 7 (batch_at 0 o1) reach_o1 Hin Ho He)
                 (fun _ _ => Success))).
Defined.

End DeliveryProofs.

(* ===================================================================== *)
(** * Proofs: the other helpers of the common utils *)
(* ===================================================================== *)

Module UtilsProofs.
Import Js Stripe JsUtils.
Local Open Scope list_scope.

(** ** [String.prototype.trim] *)

Lemma string_nil_iff (s : string) : s = "" <-> list_ascii_of_string s = [].
Proof. destruct s; simpl; split; congruence. Qed.

Lemma trim_start_nil (s : string) :
  trim_start s = "" <-> Forall (fun c => is_js_space c = true) (list_ascii_of_string s).
Proof.
  induction s as [|c t IH]; simpl; [split; auto|].
  destruct (is_js_space c) eqn:E.
  - rewrite IH. split; intros H; [constructor; auto|inversion H; auto].
  - split; [discriminate|intros H; inversion H; congruence].
Qed.

Lemma trim_start_head (s : string) :
  trim_start s = "" \/ exists c t, trim_start s = String c t /\ is_js_space c = false.
Proof.
  induction s as [|c t IH]; simpl; [auto|].
  destruct (is_js_space c) eqn:E; [exact IH|right; eauto].
Qed.

Lemma Forall_rev_iff {A} (P : A -> Prop) (l : list A) : Forall P (rev l) <-> Forall P l.
Proof.
  rewrite !Forall_forall. split; intros H x Hx; apply H; [apply in_rev in Hx|apply in_rev]; exact Hx.
Qed.

Lemma trim_end_nil (t : string) :
  trim_end t = "" <-> Forall (fun c => is_js_space c = true) (list_ascii_of_string t).
Proof.
  unfold trim_end. rewrite string_nil_iff, list_ascii_of_string_of_list_ascii.
  split.
  - intros H. apply (f_equal (@rev ascii)) in H. rewrite rev_involutive in H. simpl in H.
    apply string_nil_iff, trim_start_nil in H.
    rewrite list_ascii_of_string_of_list_ascii, Forall_rev_iff in H. exact H.
  - intros H. rewrite <- Forall_rev_iff, <- (list_ascii_of_string_of_list_ascii (rev _)) in H.
    apply trim_start_nil, string_nil_iff in H. rewrite H. reflexivity.
Qed.

Lemma trim_nil (s : string) :
  trim s = "" <-> Forall (fun c => is_js_space c = true) (list_ascii_of_string s).
Proof.
  unfold trim. rewrite trim_end_nil. rewrite <- (trim_start_nil s).
  destruct (trim_start_head s) as [E|[c [t [E Hc]]]]; rewrite E; simpl.
  - split; intros _; [reflexivity|constructor].
  - split; [intros H; inversion H; congruence|discriminate].
Qed.

(** ** [emptyObjectToUndefined] *)

Lemma emptyObject_filter (props : list (string * jsval)) :
  NoDup (map fst props) ->
  emptyObjectToUndefined (JObject props) =
    Normal (match filter kept props with [] => JUndefined | l => JObject l end).
Proof.
  intros Hnd.
  assert (Hf := JsProofs.fold_reduce_filter props [] Hnd ltac:(simpl; tauto)).
  simpl app in Hf. unfold emptyObjectToUndefined.
  cbn - [fold_left reduce_step]. rewrite Hf.
  destruct props as [|kv props']; [reflexivity|].
  cbn - [filter]. destruct (filter kept (kv :: props')); reflexivity.
Qed.

Lemma filter_keys_nodup (f : string * jsval -> bool) (l : list (string * jsval)) :
  NoDup (map fst l) -> NoDup (map fst (filter f l)).
Proof.
  induction l as [|[k v] l IH]; simpl; intros H; [constructor|].
  inversion H as [|? ? Hk Hl]; subst.
  destruct (f (k, v)); simpl; [|auto].
  constructor; [|auto].
  intros Hin. apply Hk. apply in_map_iff in Hin as [[k' v'] [Heq Hin]].
  apply filter_In in Hin as [Hin _]. apply in_map_iff. exists (k', v'); split; [exact Heq|exact Hin].
Qed.

Lemma filter_idem {A} (f : A -> bool) (l : list A) : filter f (filter f l) = filter f l.
Proof.
  induction l as [|x l IH]; simpl; [reflexivity|].
  destruct (f x) eqn:E; simpl; [rewrite E, IH|]; auto.
Qed.

(** [emptyStrToUndefined] turns a string into [undefined] exactly when
    all its characters are JavaScript white space (so also the empty
    string); any other string, and every value that is not a string, is
    returned unchanged. *)
Theorem emptyStrToUndefined_blank :
  (forall s : string,
      emptyStrToUndefined (JStr s) = JUndefined <->
      Forall (fun c => is_js_space c = true) (list_ascii_of_string s))
  /\ (forall s : string,
      emptyStrToUndefined (JStr s) = JUndefined \/ emptyStrToUndefined (JStr s) = JStr s)
  /\ (forall v : jsval,
      match v with JStr _ => True | _ => emptyStrToUndefined v = v end).
Proof.
  split; [|split].
  - intros s. rewrite <- trim_nil. unfold emptyStrToUndefined; simpl.
    destruct (String.eqb_spec (trim s) "") as [E|E]; split; congruence.
  - intros s. unfold emptyStrToUndefined; simpl.
    destruct (String.eqb (trim s) ""); auto.
  - intros v. destruct v; reflexivity.
Qed.

(** [emptyObjectToUndefined] is idempotent: applied to its own result it
    returns that result again (for every argument on which it returns,
    objects having pairwise distinct keys as JavaScript objects do). *)
Theorem emptyObjectToUndefined_idempotent (v r : jsval) :
  (forall props, v = JObject props -> NoDup (map fst props)) ->
  emptyObjectToUndefined v = Normal r ->
  emptyObjectToUndefined r = Normal r.
Proof.
  intros Hnd Hr. destruct v as [| |b|n| |n|s|i|xs|props|i];
    try (injection Hr as <-; reflexivity); [discriminate|].
  rewrite emptyObject_filter in Hr by (apply Hnd; reflexivity).
  destruct (filter kept props) as [|kv l] eqn:F; injection Hr as <-; [reflexivity|].
  assert (Hl : NoDup (map fst (kv :: l)))
    by (rewrite <- F; apply filter_keys_nodup, Hnd; reflexivity).
  rewrite (emptyObject_filter _ Hl), <- F, filter_idem, F. reflexivity.
Qed.

(** [emptyObjectToUndefined] is shallow: a property whose value is an
    object, an array, a function or a symbol is always kept as it is, even
    an empty object or array, or an object all of whose own values are
    empty strings. *)
Theorem emptyObjectToUndefined_shallow (props : list (string * jsval)) (k : string) (v : jsval) :
  NoDup (map fst props) -> In (k, v) props ->
  match v with JObject _ | JArray _ | JFunction _ | JSymbol _ => True | _ => False end ->
  exists kept_props, emptyObjectToUndefined (JObject props) = Normal (JObject kept_props)
                     /\ In (k, v) kept_props.
Proof.
  intros Hnd Hin Hv. rewrite (emptyObject_filter _ Hnd).
  assert (Hk : In (k, v) (filter kept props))
    by (apply filter_In; split; [exact Hin|destruct v; try contradiction; reflexivity]).
  destruct (filter kept props) as [|kv l]; [contradiction|].
  exists (kv :: l). split; [reflexivity|exact Hk].
Qed.

(** ** [parse], [optionalParseAsJSON], [parseObjectEntries] *)

Lemma emptyStr_cases (v : jsval) :
  (exists s, v = JStr s /\ trim s = "" /\ emptyStrToUndefined v = JUndefined)
  \/ ((forall s, v = JStr s -> trim s <> "") /\ emptyStrToUndefined v = v).
Proof.
  destruct v; try (right; split; [intros s0 H; discriminate|reflexivity]).
  unfold emptyStrToUndefined; simpl.
  destruct (String.eqb_spec (trim s) "") as [E|E].
  - left. exists s. auto.
  - right. split; [intros s0 H; injection H as <-; exact E|reflexivity].
Qed.

(** [parse] never lets an error of [JSON.parse] through: the only
    exception it throws is a [ConfigurationError] with the message "Make
    sure the custom expression contains a valid object", and it throws it
    exactly when the value is not of type object, not [undefined], not a
    blank string, and [JSON.parse] throws on it. *)
Theorem parse_errors (JSON_parse : jsval -> completion jsval) (v : jsval) :
  (forall e, parse JSON_parse v = Raise e -> e = ConfigurationError configuration_message)
  /\ (parse JSON_parse v = Raise (ConfigurationError configuration_message) <->
      typeof v <> "object" /\ v <> JUndefined
      /\ (forall s, v = JStr s -> trim s <> "")
      /\ exists err, JSON_parse v = Throw err).
Proof.
  unfold parse.
  destruct (emptyStr_cases v) as [[s [-> [Hs E]]]|[Hs E]]; rewrite E.
  - simpl. split; [discriminate|split; [discriminate|]].
    intros [_ [_ [Hb _]]]. exfalso. exact (Hb s eq_refl Hs).
  - destruct (String.eqb_spec (typeof v) "object") as [Ho|Ho]; simpl.
    + split; [discriminate|split; [discriminate|intros [Hn _]; contradiction]].
    + destruct v; simpl;
        try (split; [discriminate|split; [discriminate|intros [_ [Hn _]]; contradiction]]);
        (destruct (JSON_parse _) as [r|err] eqn:J;
         [split; [discriminate|split; [discriminate|intros [_ [_ [_ [err H]]]]; congruence]]
         |split; [intros e H; injection H as <-; reflexivity|split; [intros _|reflexivity]]]);
        (split; [exact Ho|split; [discriminate|split; [exact Hs|exists err; reflexivity]]]).
Qed.

(** [parse] returns every value of type object (objects, arrays and
    [null]) as it is, and maps [undefined] and every blank string to
    [undefined], whatever [JSON.parse] does: it does not call it on them. *)
Theorem parse_pass_through (JSON_parse : jsval -> completion jsval) :
  (forall v, typeof v = "object" -> parse JSON_parse v = Ok v)
  /\ parse JSON_parse JUndefined = Ok JUndefined
  /\ (forall s, trim s = "" -> parse JSON_parse (JStr s) = Ok JUndefined).
Proof.
  split; [|split; [reflexivity|]].
  - intros v Hv. unfold parse.
    destruct (emptyStr_cases v) as [[s [-> _]]|[_ E]]; [discriminate|].
    rewrite E, Hv. reflexivity.
  - intros s Hs. unfold parse, emptyStrToUndefined; simpl. rewrite Hs. reflexivity.
Qed.

Lemma map_entries_ok (JSON_parse : jsval -> completion jsval) (l : list (string * jsval)) :
  map_entries JSON_parse l
  = Normal (map (fun kv => (fst kv, match JSON_parse (snd kv) with
                                    | Normal r => r | Throw _ => snd kv end)) l).
Proof.
  induction l as [|[k v] l IH]; simpl; [reflexivity|].
  unfold optionalParseAsJSON at 1. rewrite IH.
  destruct (JSON_parse v); reflexivity.
Qed.

Lemma fold_obj_set (l acc : list (string * jsval)) :
  NoDup (map fst l) ->
  (forall k, In k (map fst acc) -> ~ In k (map fst l)) ->
  fold_left (fun o (kv : string * jsval) => obj_set o (fst kv) (snd kv)) l acc = acc ++ l.
Proof.
  revert acc; induction l as [|[k v] l IH]; intros acc Hnd Hdisj; simpl.
  - rewrite app_nil_r. reflexivity.
  - inversion Hnd as [|? ? Hk Hnd']; subst.
    rewrite JsProofs.obj_set_fresh by (intros Hin; apply (Hdisj k Hin); simpl; auto).
    rewrite IH; [rewrite <- app_assoc; reflexivity|exact Hnd'|].
    intros k' Hin. rewrite map_app, in_app_iff in Hin. simpl in Hin.
    destruct Hin as [Hin|[<-|[]]]; [|exact Hk].
    intros Hin'. apply (Hdisj k' Hin). simpl; auto.
Qed.

(** [parseObjectEntries] on an object (keys pairwise distinct) never
    throws: it returns an object with the same keys in the same order,
    each value replaced by [JSON.parse] of it when that succeeds and kept
    as it is when [JSON.parse] throws. *)
Theorem parseObjectEntries_object (JSON_parse : jsval -> completion jsval)
    (function_props : nat -> list (string * jsval)) (props : list (string * jsval)) :
  NoDup (map fst props) ->
  parseObjectEntries JSON_parse function_props (JObject props)
  = Normal (JObject (map (fun kv => (fst kv, match JSON_parse (snd kv) with
                                            | Normal r => r | Throw _ => snd kv end)) props)).
Proof.
  intros Hnd. unfold parseObjectEntries. simpl. rewrite map_entries_ok.
  unfold from_entries. rewrite fold_obj_set; [reflexivity| |simpl; tauto].
  rewrite map_map. simpl. exact Hnd.
Qed.

(** Unlike [parse], [parseObjectEntries] does not catch: a string that
    [JSON.parse] rejects makes it throw [JSON.parse]'s error; [null],
    [undefined] and a string whose JSON is [null] make [Object.entries]
    throw a TypeError; a boolean, number, bigint or symbol gives the empty
    object; and a function gives the object of its own enumerable
    properties, each value mapped as for an object. *)
Theorem parseObjectEntries_edges (JSON_parse : jsval -> completion jsval)
    (function_props : nat -> list (string * jsval)) :
  parseObjectEntries JSON_parse function_props JNull = Throw TypeError
  /\ parseObjectEntries JSON_parse function_props JUndefined = Throw TypeError
  /\ (forall s err, JSON_parse (JStr s) = Throw err ->
        parseObjectEntries JSON_parse function_props (JStr s) = Throw err)
  /\ (forall s, JSON_parse (JStr s) = Normal JNull ->
        parseObjectEntries JSON_parse function_props (JStr s) = Throw TypeError)
  /\ (forall v, match v with
                | JBool _ | JNum _ | JNaN | JBigInt _ | JSymbol _ => True
                | _ => False
                end -> parseObjectEntries JSON_parse function_props v = Normal (JObject []))
  /\ (forall id, parseObjectEntries JSON_parse function_props (JFunction id)
                 = Normal (from_entries
                             (map (fun kv => (fst kv, match JSON_parse (snd kv) with
                                                      | Normal r => r | Throw _ => snd kv end))
                                  (function_props id)))).
Proof.
  split; [reflexivity|split; [reflexivity|split; [|split; [|split]]]].
  - intros s err H. unfold parseObjectEntries. simpl. rewrite H. reflexivity.
  - intros s H. unfold parseObjectEntries. simpl. rewrite H. reflexivity.
  - intros v Hv. destruct v; try contradiction; reflexivity.
  - intros id. unfold parseObjectEntries. simpl. rewrite map_entries_ok. reflexivity.
Qed.

(** ** Witnesses *)

Lemma emptyObjectToUndefined_idempotent_witness :
  emptyObjectToUndefined (JObject [("a", JStr " "); ("b", JNum 2)]) = Normal (JObject [("b", JNum 2)])
  /\ emptyObjectToUndefined (JObject [("b", JNum 2)]) = Normal (JObject [("b", JNum 2)]).
Proof.
  assert (H : emptyObjectToUndefined (JObject [("a", JStr " "); ("b", JNum 2)])
              = Normal (JObject [("b", JNum 2)])) by (vm_compute; reflexivity).
  split; [exact H|].
  apply (emptyObjectToUndefined_idempotent (JObject [("a", JStr " "); ("b", JNum 2)])).
  - intros props Hp. injection Hp as <-. simpl. repeat constructor; simpl; intuition discriminate.
  - exact H.
Defined.

Lemma emptyObjectToUndefined_shallow_witness :
  exists kept_props,
    emptyObjectToUndefined (JObject [("a", JObject [("x", JStr "")]); ("b", JStr "")])
    = Normal (JObject kept_props)
    /\ In ("a", JObject [("x", JStr "")]) kept_props.
Proof.
  apply emptyObjectToUndefined_shallow.
  - simpl. repeat constructor; simpl; intuition discriminate.
  - simpl. left. reflexivity.
  - simpl. exact I.
Defined.

Lemma parse_errors_witness :
  parse (fun _ => Throw SyntaxError) (JStr "x") = Raise (ConfigurationError configuration_message)
  /\ typeof (JStr "x") <> "object".
Proof.
  assert (H : parse (fun _ => Throw SyntaxError) (JStr "x")
              = Raise (ConfigurationError configuration_message)) by (vm_compute; reflexivity).
  split; [exact H|].
  exact (proj1 (proj1 (proj2 (parse_errors (fun _ => Throw SyntaxError) (JStr "x"))) H)).
Defined.

Lemma parse_pass_through_witness :
  parse (fun _ => Throw SyntaxError) JNull = Ok JNull
  /\ parse (fun _ => Throw SyntaxError) (JStr "  ") = Ok JUndefined.
Proof.
  split.
  - apply (proj1 (parse_pass_through (fun _ => Throw SyntaxError))). reflexivity.
  - apply (proj2 (proj2 (parse_pass_through (fun _ => Throw SyntaxError)))). vm_compute. reflexivity.
Defined.

Lemma parseObjectEntries_object_witness :
  parseObjectEntries
    (fun v => match v with
              | JStr s => if String.eqb s "1" then Normal (JNum 1) else Throw SyntaxError
              | _ => Throw SyntaxError
              end)
    (fun _ => [])
    (JObject [("a", JStr "1"); ("b", JStr "x")])
  = Normal (JObject [("a", JNum 1); ("b", JStr "x")]).
Proof.
  rewrite parseObjectEntries_object.
  - reflexivity.
  - simpl. repeat constructor; simpl; intuition discriminate.
Defined.

Lemma parseObjectEntries_edges_witness :
  parseObjectEntries (fun _ => Throw SyntaxError) (fun _ => []) (JStr "x") = Throw SyntaxError
  /\ parseObjectEntries (fun _ => Normal (JNum 1)) (fun _ => [("a", JStr "1")]) (JFunction 0)
     = Normal (JObject [("a", JNum 1)]).
Proof.
  split.
  - apply (proj1 (proj2 (proj2 (parseObjectEntries_edges (fun _ => Throw SyntaxError)
                                                          (fun _ => []))))).
    reflexivity.
  - rewrite (proj2 (proj2 (proj2 (proj2 (proj2
               (parseObjectEntries_edges (fun _ => Normal (JNum 1)) (fun _ => [("a", JStr "1")]))))))).
    reflexivity.
Defined.

End UtilsProofs.

(* ===================================================================== *)
(** * Proofs: more of stripe-search-customers *)
(* ===================================================================== *)

Module StripeRunProofs.
Import Js Stripe StripeRun.
Local Open Scope list_scope.

Lemma string_app_nil_l (a b : string) : (a ++ b)%string = "" -> a = "".
Proof. destruct a; simpl; [reflexivity|discriminate]. Qed.

Lemma join_nil (sep : string) (parts : list string) :
  Forall (fun p => p <> "") parts -> join sep parts = "" <-> parts = [].
Proof.
  intros H. destruct parts as [|p [|q t]]; simpl; [tauto| |].
  - inversion H; subst. split; congruence.
  - inversion H; subst. split; [intros E; apply string_app_nil_l in E; contradiction|discriminate].
Qed.

Lemma build_empty (fallback : string -> option Z) (this : props) :
  buildSearchQuery fallback this = "" <->
  prop_truthy (query this) = false /\ prop_truthy (email this) = false
  /\ prop_truthy (emailDomain this) = false
  /\ truthy (convertDateToTimestamp fallback (createdAfter this)) = false
  /\ truthy (convertDateToTimestamp fallback (createdBefore this)) = false.
Proof.
  unfold buildSearchQuery.
  destruct (prop_truthy (query this)) eqn:Hq.
  - split; [|intros [H _]; discriminate].
    destruct (query this) as [s|]; [|discriminate]. simpl in Hq |- *.
    intros ->. discriminate.
  - destruct (prop_truthy (email this)), (prop_truthy (emailDomain this)),
      (truthy (convertDateToTimestamp fallback (createdAfter this))),
      (truthy (convertDateToTimestamp fallback (createdBefore this)));
      cbn [app]; rewrite join_nil by (repeat constructor; discriminate);
      split; intros H; try discriminate; try tauto;
      repeat match goal with H : _ /\ _ |- _ => destruct H end; discriminate.
Qed.

(** [run] throws "Please provide at least one search parameter", before
    and whatever the Stripe call, exactly when no search parameter
    survives: [query], [email] and [emailDomain] are empty or absent and
    both dates give a falsy timestamp (absent, empty, unparsable or
    1970-01-01). *)
Theorem run_requires_parameter (fallback : string -> option Z) (this : props) (limit : jsval) :
  (forall search, run fallback this limit search = RunError no_parameter_message) <->
  prop_truthy (query this) = false /\ prop_truthy (email this) = false
  /\ prop_truthy (emailDomain this) = false
  /\ truthy (convertDateToTimestamp fallback (createdAfter this)) = false
  /\ truthy (convertDateToTimestamp fallback (createdBefore this)) = false.
Proof.
  rewrite <- build_empty. unfold run.
  destruct (String.eqb_spec (buildSearchQuery fallback this) "") as [E|E].
  - split; [intros _; exact E|intros _ search; reflexivity].
  - split; [|intros H; contradiction].
    intros H. specialize (H (fun _ _ => inr [])). discriminate H.
Qed.

Lemma string_app_assoc (a b c : string) : ((a ++ b) ++ c = a ++ (b ++ c))%string.
Proof. induction a as [|x a IH]; simpl; [reflexivity|]. rewrite IH. reflexivity. Qed.

Lemma string_app_nil_r (a : string) : (a ++ "")%string = a.
Proof. induction a as [|x a IH]; simpl; [reflexivity|]. rewrite IH. reflexivity. Qed.

Lemma join_cons_prefix (sep p : string) (t : list string) :
  exists r, join sep (p :: t) = (p ++ r)%string.
Proof.
  destruct t as [|q t].
  - exists EmptyString. simpl. rewrite string_app_nil_r. reflexivity.
  - exists (sep ++ join sep (q :: t))%string. reflexivity.
Qed.

Lemma escape_head (t r : string) : escape_quotes t <> String (ascii_of_nat 34) r.
Proof.
  destruct t as [|c t]; simpl; [discriminate|].
  destruct (Ascii.eqb_spec c (ascii_of_nat 34)) as [->|Hc]; [discriminate|].
  intros H. injection H as Hc' _. contradiction.
Qed.

Lemma escape_app (a b : string) :
  escape_quotes (a ++ b) = (escape_quotes a ++ escape_quotes b)%string.
Proof.
  induction a as [|c a IH]; simpl; [reflexivity|].
  rewrite IH. destruct (Ascii.eqb c (ascii_of_nat 34)); reflexivity.
Qed.

(** The escaping of [email] and [emailDomain] loses nothing: two
    different values give two different escaped values; and in an escaped
    value every double quote directly follows a backslash. *)
Theorem escape_quotes_sound :
  (forall a b : string, escape_quotes a = escape_quotes b -> a = b)
  /\ (forall e p r : string, escape_quotes e = (p ++ String (ascii_of_nat 34) r)%string ->
        exists p', p = (p' ++ String (ascii_of_nat 92) "")%string).
Proof.
  split.
  - intros a; induction a as [|c a IH]; intros b H; destruct b as [|c' b]; simpl in H.
    + reflexivity.
    + destruct (Ascii.eqb c' (ascii_of_nat 34)); discriminate.
    + destruct (Ascii.eqb c (ascii_of_nat 34)); discriminate.
    + destruct (Ascii.eqb_spec c (ascii_of_nat 34)) as [Hc|Hc];
        destruct (Ascii.eqb_spec c' (ascii_of_nat 34)) as [Hc'|Hc'].
      * subst. injection H as H0. f_equal. apply IH. exact H0.
      * injection H as <- H. rewrite Hc in H. exfalso. exact (escape_head b _ (eq_sym H)).
      * injection H as -> H. rewrite Hc' in H. exfalso. exact (escape_head a _ H).
      * injection H as <- H. f_equal. apply IH, H.
  - intros e; induction e as [|c e IH]; intros p r H; simpl in H.
    + destruct p; discriminate.
    + destruct (Ascii.eqb_spec c (ascii_of_nat 34)) as [Hc|Hc].
      * destruct p as [|c1 [|c2 p]]; simpl in H.
        -- discriminate.
        -- injection H as <- _. exists EmptyString. reflexivity.
        -- injection H as <- <- H. destruct (IH p r H) as [p' ->].
           exists (String (ascii_of_nat 92) (String c p')). reflexivity.
      * destruct p as [|c1 p]; simpl in H.
        -- injection H as -> _. contradiction.
        -- injection H as <- H. destruct (IH p r H) as [p' ->].
           exists (String c p'). reflexivity.
Qed.

(** The escaping leaves backslashes as they are: when the [email] value
    ends in a backslash, that backslash directly precedes the closing
    double quote of the [email="..."] clause, at the start of the query. *)
Theorem email_trailing_backslash (fallback : string -> option Z) (this : props) (e : string) :
  prop_truthy (query this) = false ->
  email this = Some (e ++ String (ascii_of_nat 92) "")%string ->
  exists rest, buildSearchQuery fallback this
               = ("email=" ++ dq ++ escape_quotes e
                  ++ String (ascii_of_nat 92) dq ++ rest)%string.
Proof.
  intros Hq He. unfold buildSearchQuery. rewrite Hq, He.
  assert (Ht : prop_truthy (Some (e ++ String (ascii_of_nat 92) "")%string) = true)
    by (destruct e; reflexivity).
  rewrite Ht. cbn [prop_value app].
  rewrite escape_app.
  lazymatch goal with
  | |- exists _, join ?sep (?p :: ?t) = _ => pose proof (join_cons_prefix sep p t) as Hj
  end.
  destruct Hj as [r0 Hr]. rewrite Hr. exists r0. rewrite !string_app_assoc. reflexivity.
Qed.

(** ** Calendar dates *)

Local Open Scope Z_scope.

Lemma digit_bound (c : ascii) (x : Z) : digit c = Some x -> 0 <= x <= 9.
Proof.
  unfold digit.
  destruct ((48 <=? nat_of_ascii c)%nat && (nat_of_ascii c <=? 57)%nat) eqn:E; [|discriminate].
  intros H; injection H as <-. apply andb_true_iff in E as [E1 E2].
  apply Nat.leb_le in E1, E2. lia.
Qed.

Lemma digits_value_bound (cs : list ascii) (acc v : Z) :
  digits_value acc cs = Some v -> 0 <= acc ->
  0 <= v < (acc + 1) * 10 ^ Z.of_nat (List.length cs).
Proof.
  revert acc; induction cs as [|c cs IH]; intros acc H Hacc; simpl in H.
  - injection H as <-. simpl. lia.
  - destruct (digit c) as [x|] eqn:D; [|discriminate].
    apply digit_bound in D. specialize (IH _ H ltac:(lia)).
    cbn [List.length]. rewrite Nat2Z.inj_succ, Z.pow_succ_r by lia.
    assert (0 < 10 ^ Z.of_nat (List.length cs)) by (apply Z.pow_pos_nonneg; lia).
    nia.
Qed.

Lemma days_in_month_le (y m : Z) : days_in_month y m <= 31.
Proof.
  unfold days_in_month.
  destruct (Z.eqb m 2); [destruct (is_leap y); lia|].
  destruct (existsb _ _); lia.
Qed.

Ltac zdivs :=
  repeat match goal with
  | |- context [?a / ?b] =>
      let q := fresh "q" in let r := fresh "r" in
      let H1 := fresh "Hdiv" in let H2 := fresh "Hmod" in
      pose proof (Z.div_mod a b ltac:(lia)) as H1;
      pose proof (Z.mod_pos_bound a b ltac:(lia)) as H2;
      set (q := a / b) in *; set (r := a mod b) in *;
      clearbody q r
  end.

Lemma days_from_civil_bound (y m d : Z) :
  0 <= y < 10000 -> 1 <= m <= 12 -> 1 <= d <= 31 ->
  Z.abs (days_from_civil y m d) <= 100000000.
Proof.
  intros Hy Hm Hd. unfold days_from_civil. cbv zeta.
  destruct (m <=? 2); destruct (2 <? m); zdivs; lia.
Qed.

(** For a [YYYY-MM-DD] string of digits naming a valid calendar date,
    [convertDateToTimestamp] returns the Unix timestamp in seconds of that
    day's midnight UTC, [days_from_civil y m d * 86400], whatever the
    engine's fallback date parser: the string is read in the standard
    Date Time String Format. *)
Theorem convertDateToTimestamp_calendar_date (fallback : string -> option Z)
    (y1 y2 y3 y4 m1 m2 d1 d2 : ascii) (y m d : Z) :
  digits_value 0 [y1; y2; y3; y4] = Some y ->
  digits_value 0 [m1; m2] = Some m ->
  digits_value 0 [d1; d2] = Some d ->
  in_range 1 m 12 = true -> in_range 1 d (days_in_month y m) = true ->
  convertDateToTimestamp fallback
    (Some (string_of_list_ascii [y1; y2; y3; y4; "-"%char; m1; m2; "-"%char; d1; d2]))
  = JNum (days_from_civil y m d * 86400).
Proof.
  intros Hy Hm Hd Hmr Hdr.
  pose proof (digits_value_bound _ _ _ Hy ltac:(lia)) as Hyb. simpl in Hyb.
  pose proof (days_in_month_le y m) as Hdim.
  unfold in_range in Hmr, Hdr. apply andb_true_iff in Hmr as [Hm1 Hm2].
  apply andb_true_iff in Hdr as [Hd1 Hd2]. apply Z.leb_le in Hm1, Hm2, Hd1, Hd2.
  pose proof (days_from_civil_bound y m d ltac:(lia) ltac:(lia) ltac:(lia)) as Hb.
  unfold convertDateToTimestamp, date_parse, iso_date_time.
  cbn [prop_truthy String.eqb negb string_of_list_ascii append list_ascii_of_string].
  cbn [Ascii.eqb Bool.eqb andb].
  rewrite Hy, Hm, Hd.
  replace (digits_value 0 ["0"%char; "0"%char]) with (Some 0) by reflexivity.
  unfold in_range.
  replace (1 <=? m) with true by (symmetry; apply Z.leb_le; lia).
  replace (m <=? 12) with true by (symmetry; apply Z.leb_le; lia).
  replace (1 <=? d) with true by (symmetry; apply Z.leb_le; lia).
  replace (d <=? days_in_month y m) with true by (symmetry; apply Z.leb_le; lia).
  cbn [andb Z.leb Z.compare].
  unfold time_clip.
  replace (Z.abs _ <=? 8640000000000000) with true by (symmetry; apply Z.leb_le; lia).
  f_equal. rewrite <- Z.div_mul with (a := days_from_civil y m d * 86400) (b := 1000) by lia.
  f_equal. lia.
Qed.

(** ** Witnesses *)

Lemma escape_quotes_sound_witness :
  escape_quotes dq = (String (ascii_of_nat 92) "" ++ String (ascii_of_nat 34) "")%string
  /\ exists p', String (ascii_of_nat 92) "" = (p' ++ String (ascii_of_nat 92) "")%string.
Proof.
  assert (H : escape_quotes dq = (String (ascii_of_nat 92) "" ++ String (ascii_of_nat 34) "")%string)
    by reflexivity.
  split; [exact H|].
  exact (proj2 escape_quotes_sound dq (String (ascii_of_nat 92) "") "" H).
Defined.

Lemma email_trailing_backslash_witness :
  exists rest,
    buildSearchQuery (fun _ => None)
      {| query := None; email := Some (String "a"%char (String (ascii_of_nat 92) ""));
         emailDomain := None; createdAfter := None; createdBefore := None |}
    = ("email=" ++ dq ++ "a" ++ String (ascii_of_nat 92) dq ++ rest)%string.
Proof.
  apply (email_trailing_backslash (fun _ => None) _ "a"); reflexivity.
Defined.

Lemma convertDateToTimestamp_calendar_date_witness :
  convertDateToTimestamp (fun _ => None) (Some "2024-02-29")
  = JNum (days_from_civil 2024 2 29 * 86400)
  /\ days_from_civil 2024 2 29 * 86400 = 1709164800.
Proof.
  split; [|vm_compute; reflexivity].
  exact (convertDateToTimestamp_calendar_date (fun _ => None)
           "2"%char "0"%char "2"%char "4"%char "0"%char "2"%char "2"%char "9"%char 2024 2 29
           ltac:(vm_compute; reflexivity) ltac:(vm_compute; reflexivity)
           ltac:(vm_compute; reflexivity) ltac:(vm_compute; reflexivity)
           ltac:(vm_compute; reflexivity)).
Defined.

End StripeRunProofs.
